(** * TonyBox: an NFC-triggered Spotify player and its tag registry

    A shallow embedding of [player.py] (the control loop) and of the routes
    of [app.py] (the registry) that extract a link, write or delete a row,
    or read a tag, with the properties of the natural-language specification
    stated over it.

    Conventions of the embedding.
    - Everything the scripts obtain from outside (the RFID reader, the SQLite
      table, the Spotify Web API, the GPIO levels, the time a call or a sleep
      really takes, an interrupt) is supplied by a [world] record, one per
      loop iteration.
    - Every piece of the script yields the [event]s it caused, each stamped
      with the clock (in milliseconds) at which it happened.
    - Python exceptions are an error monad; [try_except] catches by class. *)

From Stdlib Require Import String Ascii List NArith Bool Arith Lia.
Import ListNotations.
Open Scope string_scope.

(** ** The tag registry table (shared by both scripts) *)

Module Registry.

(** One row of table [tags] as created by [init_db]. *)
Record row := {
  col_id : N;
  col_tag_id : string;
  col_spotify_uri : string;
  col_media_type : string;
  col_comment : string
}.

(** The table, in rowid order, together with the largest rowid ever handed
    out (SQLite's [sqlite_sequence] entry of an AUTOINCREMENT key). *)
Record table := {
  rows : list row;
  last_rowid : N
}.

End Registry.

(** ** player.py *)

Module Player.
Import Registry.

(** *** Exceptions *)

(** The exception classes that matter to the handlers of the script:
    [SpotifyException] and every other subclass of [Exception] on one side,
    [KeyboardInterrupt] and [SystemExit] (direct subclasses of
    [BaseException]) on the other. *)
Inductive exn := SpotifyException | OtherException | KeyboardInterrupt | SystemExit.

Definition isinstance_Exception (e : exn) : bool :=
  match e with
  | SpotifyException | OtherException => true
  | KeyboardInterrupt | SystemExit => false
  end.

Definition isinstance_SpotifyException (e : exn) : bool :=
  match e with SpotifyException => true | _ => false end.

Definition isinstance_KeyboardInterrupt (e : exn) : bool :=
  match e with KeyboardInterrupt => true | _ => false end.

Inductive result (A : Type) := Ok (a : A) | Raise (e : exn).
Arguments Ok {A} a.
Arguments Raise {A} e.

(** *** What the outside answers *)

(** The answer of a blocking call: how long it took and what it returned
    or raised. *)
Record reply (A : Type) := { took : N; ans : result A }.
Arguments took {A} r.
Arguments ans {A} r.

(** The course of one [sleep(d)]: either it runs to completion, lasting
    [d + lag], or a SIGINT arrives after [lag] and [KeyboardInterrupt] is
    raised. *)
Record nap := { lag : N; interrupted : bool }.

Inductive level := LOW | HIGH.

Definition level_eqb (a b : level) : bool :=
  match a, b with LOW, LOW | HIGH, HIGH => true | _, _ => false end.

Inductive button := PlayPause | NextTrack | PreviousTrack.

Definition BTN_PLAY_PAUSE : N := 22.
Definition BTN_NEXT : N := 27.
Definition BTN_PREV : N := 17.

Definition pin_of (b : button) : N :=
  match b with
  | PlayPause => BTN_PLAY_PAUSE
  | NextTrack => BTN_NEXT
  | PreviousTrack => BTN_PREV
  end.

(** Everything one iteration of the loop gets from outside, one field per
    call site.  [sp_current_playback] answers [None] when the API reports no
    playback and [Some is_playing] otherwise. *)
Record world := {
  reader_read : reply string;        (* str(reader.read()[0]) *)
  db : reply (list row);             (* the rows of [tags] seen by the SELECT *)
  sp_transfer_playback : reply unit;
  nap_settle : nap;                  (* sleep(1) *)
  sp_start_playback : reply unit;    (* the start call of play_media *)
  gpio : N -> level;                 (* GPIO.input(pin) *)
  sp_current_playback : reply (option bool);
  sp_pause_playback : reply unit;
  sp_resume_playback : reply unit;   (* sp.start_playback() *)
  nap_play_pause : nap;              (* sleep(0.3) *)
  sp_next_track : reply unit;
  nap_next : nap;
  sp_previous_track : reply unit;
  nap_prev : nap;
  nap_loop : nap                     (* sleep(0.1) *)
}.

(** *** Observable effects *)

(** A request to the Spotify Web API, with the keyword arguments the script
    passes ([start_playback] leaves the ones it does not pass at [None]). *)
Inductive backend_call :=
| transfer_playback (device_id : option string) (force_play : bool)
| start_playback (device_id : option string) (context_uri : option string)
                 (uris : option (list string))
| current_playback
| pause_playback
| next_track
| previous_track.

(** The lines the script prints. *)
Inductive line :=
| Ready                                            (* "DIY Toniebox ready..." *)
| TagScanned (tag_id : string)                     (* "Tag scanned: ..." *)
| Playing (media_type spotify_uri : string)        (* "Playing ...: ..." *)
| TagNotFound                                      (* "Tag not found in database." *)
| DuplicateScan                                    (* "Duplicate scan detected; ignoring." *)
| AuthError (e : exn)                              (* "AUTH ERROR!!" *)
| TransferFailed                                   (* "Couldn't transfer playback..." *)
| UnknownMediaType (media_type uri : string)       (* "Unknown media type ..." *)
| StartError (e : exn)                             (* "Error starting playback: ..." *)
| ButtonPressed (b : button)                       (* "... button pressed" *)
| ToggleError (e : exn)                            (* "Error toggling playback: ..." *)
| SkipError (e : exn)                              (* "Error skipping track: ..." *)
| PreviousError (e : exn)                          (* "Error going to previous track: ..." *)
| ExitingGracefully.                               (* "Exiting gracefully..." *)

Inductive event :=
| Print (l : line)
| ReaderRead
| Select (tag_id : string)          (* the SELECT of get_tag_data *)
| Spotify (c : backend_call)
| GpioInput (pin : N) (lvl : level)
| Sleep (ms : N)
| GpioCleanup.

(** *** Machine state and the monad of the script *)

(** The only mutable global of the script is [last_tag_id]; [now] is the
    wall clock in milliseconds. *)
Record machine := {
  last_tag_id : option string;
  now : N
}.

Definition boot : machine := {| last_tag_id := None; now := 0 |}.

(** What running a piece of the script yields: its value or exception, the
    machine afterwards, and the events it caused, each with its time. *)
Record run (A : Type) := {
  returned : result A;
  after : machine;
  emitted : list (N * event)
}.
Arguments returned {A} r.
Arguments after {A} r.
Arguments emitted {A} r.

Definition M (A : Type) : Type := machine -> run A.

Definition ret {A} (a : A) : M A :=
  fun m => {| returned := Ok a; after := m; emitted := [] |}.

Definition raise {A} (e : exn) : M A :=
  fun m => {| returned := Raise e; after := m; emitted := [] |}.

Definition bind {A B} (c : M A) (k : A -> M B) : M B :=
  fun m =>
    match c m with
    | {| returned := Ok a; after := m1; emitted := t1 |} =>
        match k a m1 with
        | {| returned := r; after := m2; emitted := t2 |} =>
            {| returned := r; after := m2; emitted := t1 ++ t2 |}
        end
    | {| returned := Raise e; after := m1; emitted := t1 |} =>
        {| returned := Raise e; after := m1; emitted := t1 |}
    end.

Notation "x <- c ;; k" := (bind c (fun x => k))
  (at level 61, c at next level, right associativity).
Notation "c ;; k" := (bind c (fun _ => k))
  (at level 61, right associativity).

(** [try: body / except <class> as e: handler e]. *)
Definition try_except {A} (body : M A) (class : exn -> bool)
    (handler : exn -> M A) : M A :=
  fun m =>
    match body m with
    | {| returned := Ok a; after := m1; emitted := t1 |} =>
        {| returned := Ok a; after := m1; emitted := t1 |}
    | {| returned := Raise e; after := m1; emitted := t1 |} =>
        if class e then
          match handler e m1 with
          | {| returned := r; after := m2; emitted := t2 |} =>
              {| returned := r; after := m2; emitted := t1 ++ t2 |}
          end
        else {| returned := Raise e; after := m1; emitted := t1 |}
    end.

(** [try: body / finally: final]. *)
Definition try_finally {A} (body : M A) (final : M unit) : M A :=
  fun m =>
    match body m with
    | {| returned := r; after := m1; emitted := t1 |} =>
        match final m1 with
        | {| returned := Ok _; after := m2; emitted := t2 |} =>
            {| returned := r; after := m2; emitted := t1 ++ t2 |}
        | {| returned := Raise e; after := m2; emitted := t2 |} =>
            {| returned := Raise e; after := m2; emitted := t1 ++ t2 |}
        end
    end.

Definition emit (e : event) : M unit :=
  fun m => {| returned := Ok tt; after := m; emitted := [(now m, e)] |}.

Definition elapse (d : N) : M unit :=
  fun m => {| returned := Ok tt;
              after := {| last_tag_id := last_tag_id m; now := now m + d |};
              emitted := [] |}.

Definition get_last_tag_id : M (option string) :=
  fun m => {| returned := Ok (last_tag_id m); after := m; emitted := [] |}.

Definition set_last_tag_id (t : string) : M unit :=
  fun m => {| returned := Ok tt;
              after := {| last_tag_id := Some t; now := now m |};
              emitted := [] |}.

Definition answer {A} (r : result A) : M A :=
  match r with Ok a => ret a | Raise e => raise e end.

(** A blocking call: the request is issued, time passes, the answer comes. *)
Definition call {A} (e : event) (r : reply A) : M A :=
  emit e ;; elapse (took r) ;; answer (ans r).

Definition print (l : line) : M unit := emit (Print l).

Definition sleep (ms : N) (n : nap) : M unit :=
  emit (Sleep ms) ;;
  if interrupted n then elapse (lag n) ;; raise KeyboardInterrupt
  else elapse (ms + lag n).

Definition GPIO_input (w : world) (pin : N) : M level :=
  emit (GpioInput pin (gpio w pin)) ;; ret (gpio w pin).

Definition GPIO_cleanup : M unit := emit GpioCleanup.

Definition option_string_eqb (a b : option string) : bool :=
  match a, b with
  | Some x, Some y => String.eqb x y
  | None, None => true
  | _, _ => false
  end.

Section Script.

(** [os.getenv("DEVICE_ID")]. *)
Variable DEVICE_ID : option string.

(** [cursor.fetchone()] over the result of
    [SELECT spotify_uri, media_type FROM tags WHERE tag_id = ?]. *)
Definition select_by_tag (rs : list row) (tag_id : string) : list (string * string) :=
  map (fun r => (col_spotify_uri r, col_media_type r))
      (filter (fun r => String.eqb (col_tag_id r) tag_id) rs).

Definition fetchone {A} (l : list A) : option A := hd_error l.

Definition get_tag_data (w : world) (tag_id : string) : M (option (string * string)) :=
  rs <- call (Select tag_id) (db w) ;;
  ret (fetchone (select_by_tag rs tag_id)).

(** [play_media]: the first [try] returns early on a [SpotifyException];
    the flag carries that early return. *)
Definition play_media (w : world) (uri media_type : string) : M unit :=
  transferred <-
    try_except
      (call (Spotify (transfer_playback DEVICE_ID true)) (sp_transfer_playback w) ;;
       sleep 1000 (nap_settle w) ;;
       ret true)
      isinstance_SpotifyException
      (fun _ => print TransferFailed ;; ret false) ;;
  if transferred then
    try_except
      (if String.eqb media_type "track" then
         call (Spotify (start_playback DEVICE_ID None (Some [uri]))) (sp_start_playback w)
       else if String.eqb media_type "album" || String.eqb media_type "playlist" then
         call (Spotify (start_playback DEVICE_ID (Some uri) None)) (sp_start_playback w)
       else
         print (UnknownMediaType media_type uri))
      isinstance_Exception
      (fun e => print (StartError e))
  else ret tt.

Definition handle_play_pause (w : world) : M unit :=
  print (ButtonPressed PlayPause) ;;
  try_except
    (playback <- call (Spotify current_playback) (sp_current_playback w) ;;
     match playback with
     | Some true => call (Spotify pause_playback) (sp_pause_playback w)
     | _ => call (Spotify (start_playback None None None)) (sp_resume_playback w)
     end)
    isinstance_Exception
    (fun e => print (ToggleError e)).

Definition handle_next (w : world) : M unit :=
  print (ButtonPressed NextTrack) ;;
  try_except
    (call (Spotify next_track) (sp_next_track w))
    isinstance_Exception
    (fun e => print (SkipError e)).

Definition handle_previous (w : world) : M unit :=
  print (ButtonPressed PreviousTrack) ;;
  try_except
    (call (Spotify previous_track) (sp_previous_track w))
    isinstance_Exception
    (fun e => print (PreviousError e)).

(** The "Read from NFC tag" part of the loop body. *)
Definition scan_tag (w : world) : M unit :=
  try_except
    (tag_id <- call ReaderRead (reader_read w) ;;
     last <- get_last_tag_id ;;
     if negb (option_string_eqb (Some tag_id) last) then
       print (TagScanned tag_id) ;;
       tag_data <- get_tag_data w tag_id ;;
       match tag_data with
       | Some (spotify_uri, media_type) =>
           print (Playing media_type spotify_uri) ;;
           play_media w spotify_uri media_type ;;
           set_last_tag_id tag_id
       | None => print TagNotFound
       end
     else print DuplicateScan)
    isinstance_Exception
    (fun e => print (AuthError e)).

(** The "Poll buttons" part of the loop body. *)
Definition poll_play_pause (w : world) : M unit :=
  lvl <- GPIO_input w BTN_PLAY_PAUSE ;;
  if level_eqb lvl LOW then handle_play_pause w ;; sleep 300 (nap_play_pause w)
  else ret tt.

Definition poll_next (w : world) : M unit :=
  lvl <- GPIO_input w BTN_NEXT ;;
  if level_eqb lvl LOW then handle_next w ;; sleep 300 (nap_next w)
  else ret tt.

Definition poll_prev (w : world) : M unit :=
  lvl <- GPIO_input w BTN_PREV ;;
  if level_eqb lvl LOW then handle_previous w ;; sleep 300 (nap_prev w)
  else ret tt.

Definition poll_buttons (w : world) : M unit :=
  poll_play_pause w ;; poll_next w ;; poll_prev w.

(** One iteration of [while True]. *)
Definition tick (w : world) : M unit :=
  scan_tag w ;; poll_buttons w ;; sleep 100 (nap_loop w).

(** [while True] run against the worlds of its first iterations: [Ok] means
    that the loop is still running after all of them, [Raise] that an
    exception left the loop. *)
Fixpoint loop (ws : list world) : M unit :=
  match ws with
  | [] => ret tt
  | w :: ws' => tick w ;; loop ws'
  end.

(** How far the script has got. *)
Inductive status :=
| Running                  (* still inside [while True] *)
| Exited (e : option exn). (* the script ended; [Some e]: with a traceback *)

(** The whole script from the greeting on: the loop inside
    [try / except KeyboardInterrupt / finally].  The handlers only run once
    an exception has left the loop. *)
Definition main (ws : list world) : machine -> status * machine * list (N * event) :=
  fun m =>
    match (print Ready ;; loop ws) m with
    | {| returned := Ok _; after := m1; emitted := t1 |} => (Running, m1, t1)
    | {| returned := Raise e; after := m1; emitted := t1 |} =>
        match
          try_finally
            (try_except (raise e) isinstance_KeyboardInterrupt
               (fun _ => print ExitingGracefully))
            GPIO_cleanup m1
        with
        | {| returned := Ok _; after := m2; emitted := t2 |} =>
            (Exited None, m2, (t1 ++ t2)%list)
        | {| returned := Raise e'; after := m2; emitted := t2 |} =>
            (Exited (Some e'), m2, (t1 ++ t2)%list)
        end
    end.

End Script.

End Player.

(** ** app.py *)

Module App.
Import Registry.

(** *** The regular expression of [extract_uri_and_type]

    [re.search(r"open\.spotify\.com\/(track|album|playlist)\/([a-zA-Z0-9]+)", link)],
    written as the backtracking matcher it denotes: a literal, an ordered
    alternation with its continuation, a literal, and a greedy run of the
    character class, tried at every position from the left. *)

Definition is_alnum (c : ascii) : bool :=
  let n := N_of_ascii c in
  ((48 <=? n) && (n <=? 57) || (65 <=? n) && (n <=? 90) || (97 <=? n) && (n <=? 122))%N.

(** [strip_prefix p s]: what is left of [s] after the literal [p]. *)
Fixpoint strip_prefix (p s : string) : option string :=
  match p, s with
  | EmptyString, _ => Some s
  | String a p', String b s' => if Ascii.eqb a b then strip_prefix p' s' else None
  | String _ _, EmptyString => None
  end.

(** The longest run of class characters at the head of [s], and the rest. *)
Fixpoint alnum_run (s : string) : string * string :=
  match s with
  | String c s' =>
      if is_alnum c then let (run, rest) := alnum_run s' in (String c run, rest)
      else (EmptyString, s)
  | EmptyString => (EmptyString, EmptyString)
  end.

(** Ordered alternation: the first alternative after which the rest of the
    pattern [k] succeeds. *)
Fixpoint try_alternatives {R} (alts : list string) (s : string)
    (k : string -> string -> option R) : option R :=
  match alts with
  | [] => None
  | a :: alts' =>
      match strip_prefix a s with
      | Some s' =>
          match k a s' with
          | Some r => Some r
          | None => try_alternatives alts' s k
          end
      | None => try_alternatives alts' s k
      end
  end.

Definition media_types : list string := ["track"; "album"; "playlist"].

(** A match of the whole pattern starting at the head of [s]: its two groups. *)
Definition match_here (s : string) : option (string * string) :=
  match strip_prefix "open.spotify.com/" s with
  | None => None
  | Some s1 =>
      try_alternatives media_types s1 (fun media_type s2 =>
        match strip_prefix "/" s2 with
        | None => None
        | Some s3 =>
            match alnum_run s3 with
            | (EmptyString, _) => None
            | (uri_id, _) => Some (media_type, uri_id)
            end
        end)
  end.

(** [re.search(...).groups()], [None] when nothing matches. *)
Fixpoint re_search (link : string) : option (string * string) :=
  match match_here link with
  | Some groups => Some groups
  | None =>
      match link with
      | EmptyString => None
      | String _ link' => re_search link'
      end
  end.

Definition extract_uri_and_type (link : string) : option string * option string :=
  match re_search link with
  | None => (None, None)
  | Some (media_type, uri_id) =>
      (Some ("spotify:" ++ media_type ++ ":" ++ uri_id), Some media_type)
  end.

(** *** The routes that write a row *)

(** [request.form] of the add and edit pages. *)
Record form := {
  form_tag_id : string;
  form_spotify_link : string;
  form_comment : string
}.

Inductive response :=
| Status (body : string) (code : N)   (* return body, code *)
| RedirectIndex                       (* redirect(url_for('index')) *)
| InternalServerError.                (* the 500 of a view that raised *)

(** The largest integer SQLite stores.  Binding a larger Python [int] to a
    statement raises [OverflowError] before the statement runs. *)
Definition SQLITE_MAX : N := 9223372036854775807.

(** [INSERT INTO tags (tag_id, spotify_uri, media_type, comment) VALUES ...]
    with its AUTOINCREMENT key. *)
Definition next_rowid (t : table) : N :=
  N.succ (fold_right N.max (last_rowid t) (map col_id (rows t))).

Definition insert_tag (t : table) (tag_id spotify_uri media_type comment : string) : table :=
  let i := next_rowid t in
  {| rows := rows t ++ [{| col_id := i; col_tag_id := tag_id;
                           col_spotify_uri := spotify_uri;
                           col_media_type := media_type;
                           col_comment := comment |}];
     last_rowid := i |}.

(** [UPDATE tags SET ... WHERE id = ?]. *)
Definition update_tag (t : table) (id : N) (tag_id spotify_uri media_type comment : string) : table :=
  {| rows := map (fun r =>
                    if (col_id r =? id)%N then
                      {| col_id := col_id r; col_tag_id := tag_id;
                         col_spotify_uri := spotify_uri;
                         col_media_type := media_type;
                         col_comment := comment |}
                    else r) (rows t);
     last_rowid := last_rowid t |}.

Definition add (f : form) (t : table) : response * table :=
  match extract_uri_and_type (form_spotify_link f) with
  | (Some spotify_uri, Some media_type) =>
      (RedirectIndex,
       insert_tag t (form_tag_id f) spotify_uri media_type (form_comment f))
  | _ => (Status "Invalid Spotify link" 400, t)
  end.

(** The key of the URL is whatever number was typed there; Flask's [int]
    converter puts no bound on it. *)
Definition edit (tag_id : N) (f : form) (t : table) : response * table :=
  match extract_uri_and_type (form_spotify_link f) with
  | (Some spotify_uri, Some media_type) =>
      if (tag_id <=? SQLITE_MAX)%N then
        (RedirectIndex,
         update_tag t tag_id (form_tag_id f) spotify_uri media_type (form_comment f))
      else (InternalServerError, t)
  | _ => (Status "Invalid Spotify link" 400, t)
  end.

(** [DELETE FROM tags WHERE id = ?]; the AUTOINCREMENT counter is not part
    of the table's rows and stays. *)
Definition delete_from_tags (t : table) (id : N) : table :=
  {| rows := filter (fun r => negb (col_id r =? id)%N) (rows t);
     last_rowid := last_rowid t |}.

Definition delete_tag (tag_id : N) (t : table) : response * table :=
  if (tag_id <=? SQLITE_MAX)%N then (RedirectIndex, delete_from_tags t tag_id)
  else (InternalServerError, t).

(** *** The route that reads a tag for the form *)

Import Player.

(** The JSON answers of [read_tag_id]. *)
Inductive reading :=
| TagRead (tag_id : string)          (* {'tag_id': str(tag_id)} *)
| ReadError (e : exn) (code : N).    (* {'error': str(e)}, code *)

(** [try: read / except Exception / finally: GPIO.cleanup()], against the
    answer [r] of the reader. *)
Definition read_tag_id (r : reply string) : M reading :=
  try_finally
    (try_except
       (tag_id <- call ReaderRead r ;; ret (TagRead tag_id))
       isinstance_Exception
       (fun e => ret (ReadError e 500)))
    GPIO_cleanup.

End App.


(** ** Vocabulary of the properties *)

Module PlayerSpec.
Import Registry Player.

(** The events of a run, without their times. *)
Definition trace {A} (r : run A) : list event := map snd (emitted r).

Definition is_backend_call (e : event) : bool :=
  match e with Spotify _ => true | _ => false end.

Definition is_lookup (e : event) : bool :=
  match e with Select _ => true | _ => false end.

(** The start calls of [play_media] name a URI; the resume of the
    Play/Pause button names none. *)
Definition is_start_call (e : event) : bool :=
  match e with
  | Spotify (start_playback _ (Some _) _) => true
  | Spotify (start_playback _ _ (Some _)) => true
  | _ => false
  end.

Definition is_transfer_call (e : event) : bool :=
  match e with Spotify (transfer_playback _ _) => true | _ => false end.

(** What the handling of a tag can cause: a registry lookup, a transfer, a
    start. *)
Definition tag_effect (e : event) : bool :=
  is_lookup e || is_transfer_call e || is_start_call e.

Definition is_lookup_of (tag : string) (e : event) : bool :=
  match e with Select t => String.eqb t tag | _ => false end.

Definition is_miss_line (e : event) : bool :=
  match e with Print TagNotFound => true | _ => false end.

Definition is_duplicate_line (e : event) : bool :=
  match e with Print DuplicateScan => true | _ => false end.

Definition is_cleanup (e : event) : bool :=
  match e with GpioCleanup => true | _ => false end.

(** The lines by which a handler reports a failure it caught. *)
Definition is_error_line (e : event) : bool :=
  match e with
  | Print (AuthError _) | Print TransferFailed | Print (StartError _)
  | Print (ToggleError _) | Print (SkipError _) | Print (PreviousError _) => true
  | _ => false
  end.

Definition failed {A} (r : reply A) : bool :=
  match ans r with Raise _ => true | Ok _ => false end.

(** Whether the call behind an event of world [w] raised. *)
Definition is_failed_call (w : world) (e : event) : bool :=
  match e with
  | ReaderRead => failed (reader_read w)
  | Select _ => failed (db w)
  | Spotify (transfer_playback _ _) => failed (sp_transfer_playback w)
  | Spotify (start_playback _ None None) => failed (sp_resume_playback w)
  | Spotify (start_playback _ _ _) => failed (sp_start_playback w)
  | Spotify current_playback => failed (sp_current_playback w)
  | Spotify pause_playback => failed (sp_pause_playback w)
  | Spotify next_track => failed (sp_next_track w)
  | Spotify previous_track => failed (sp_previous_track w)
  | _ => false
  end.

Definition tally (p : event -> bool) (l : list event) : nat :=
  length (filter p l).

(** An answer that is no failure of the call but a signal to the process:
    an exception outside the [Exception] hierarchy. *)
Definition signalled {A} (r : reply A) : bool :=
  match ans r with Raise e => negb (isinstance_Exception e) | Ok _ => false end.

(** A world in which no interrupt or exit request arrives. *)
Definition undisturbed (w : world) : bool :=
  negb (signalled (reader_read w) || signalled (db w)
        || signalled (sp_transfer_playback w) || interrupted (nap_settle w)
        || signalled (sp_start_playback w)
        || signalled (sp_current_playback w) || signalled (sp_pause_playback w)
        || signalled (sp_resume_playback w) || interrupted (nap_play_pause w)
        || signalled (sp_next_track w) || interrupted (nap_next w)
        || signalled (sp_previous_track w) || interrupted (nap_prev w)
        || interrupted (nap_loop w)).

Definition button_eqb (a b : button) : bool :=
  match a, b with
  | PlayPause, PlayPause | NextTrack, NextTrack
  | PreviousTrack, PreviousTrack => true
  | _, _ => false
  end.

Definition is_poll (b : button) (e : event) : bool :=
  match e with GpioInput p _ => (p =? pin_of b)%N | _ => false end.

Definition is_press (b : button) (e : event) : bool :=
  match e with Print (ButtonPressed b') => button_eqb b b' | _ => false end.

Definition is_button_event (e : event) : bool :=
  match e with
  | GpioInput _ _ | Print (ButtonPressed _) => true
  | _ => false
  end.

(** [c] only causes events of class [p]. *)
Definition emits {A} (p : event -> bool) (c : M A) : Prop :=
  forall m, forallb (fun te => p (snd te)) (emitted (c m)) = true.

(** [c] never turns the clock back and stamps its events no earlier than
    its start. *)
Definition timely {A} (c : M A) : Prop :=
  forall m, (now m <= now (after (c m)))%N /\
            Forall (fun te => (now m <= fst te)%N) (emitted (c m)).

(** [c] leaves [last_tag_id] alone. *)
Definition keeps_tag {A} (c : M A) : Prop :=
  forall m, last_tag_id (after (c m)) = last_tag_id m.

(** [c] lets no exception out, and prints one error line for each of its
    calls that failed in world [w]. *)
Definition contains (w : world) (c : M unit) : Prop :=
  forall m,
    returned (c m) = Ok tt /\
    tally is_error_line (trace (c m)) = tally (is_failed_call w) (trace (c m)).

(** [c] owes at most one error line: when it returns, every failed call of
    world [w] has its error line; when it raises, the exception is a failure
    of the one call that has none yet. *)
Definition owes_at_most_one {A} (w : world) (c : M A) : Prop :=
  forall m,
    match returned (c m) with
    | Ok _ =>
        tally is_error_line (trace (c m)) = tally (is_failed_call w) (trace (c m))
    | Raise e =>
        isinstance_Exception e = true /\
        S (tally is_error_line (trace (c m))) = tally (is_failed_call w) (trace (c m))
    end.

(** [c] returns after printing exactly one error line and calling nothing. *)
Definition settles {A} (w : world) (c : M A) : Prop :=
  forall m,
    (exists a, returned (c m) = Ok a) /\
    tally is_error_line (trace (c m)) = 1 /\
    tally (is_failed_call w) (trace (c m)) = 0.

(** [c] always returns. *)
Definition returns {A} (c : M A) : Prop :=
  forall m, exists a, returned (c m) = Ok a.

(** The debounce window of the buttons, in milliseconds. *)
Definition DEBOUNCE : N := 300.

(** The loop delay, in milliseconds. *)
Definition LOOP_DELAY : N := 100.

(** After an honoured press the loop sleeps through the window and, at the
    end of the iteration, through the loop delay, before it comes back to
    the button. *)
Definition QUIET : N := DEBOUNCE + LOOP_DELAY.

(** Within [tr], every poll of button [b] comes more than the window after
    every earlier honoured press of [b]. *)
Definition debounced (b : button) (tr : list (N * event)) : Prop :=
  forall i j t1 t2 lvl,
    i < j ->
    nth_error tr i = Some (t1, Print (ButtonPressed b)) ->
    nth_error tr j = Some (t2, GpioInput (pin_of b) lvl) ->
    (t1 + DEBOUNCE < t2)%N.

(** Within [tr], every poll that reads a button pressed is followed at once
    by its handler. *)
Definition honoured (tr : list (N * event)) : Prop :=
  forall j t b,
    nth_error tr j = Some (t, GpioInput (pin_of b) LOW) ->
    nth_error tr (S j) = Some (t, Print (ButtonPressed b)).


(** *** Bookkeeping for the debounce argument *)

Definition about (b : button) (e : event) : bool := is_poll b e || is_press b e.

(** The time of the latest honoured press once one more is honoured at [t]. *)
Definition bump (t : N) (last : option N) : option N :=
  Some (match last with Some t0 => N.max t0 t | None => t end).

(** The latest honoured press of [b] after [tr], given the one before. *)
Fixpoint last_press (b : button) (last : option N) (tr : list (N * event)) : option N :=
  match tr with
  | [] => last
  | (t, e) :: tr' => last_press b (if is_press b e then bump t last else last) tr'
  end.

(** Checks, event by event, that each poll of [b] comes at least [QUIET]
    after the latest honoured press of [b] before it. *)
Fixpoint spaced (b : button) (last : option N) (tr : list (N * event)) : bool :=
  match tr with
  | [] => true
  | (t, e) :: tr' =>
      (if is_poll b e then
         match last with Some t0 => (t0 + QUIET <=? t)%N | None => true end
       else true)
      && spaced b (if is_press b e then bump t last else last) tr'
  end.

(** [c], started at least [g] after the latest honoured press of [b], polls
    [b] only [QUIET] or more after it, and when it returns at least [g'] have
    passed since the latest honoured press. *)
Definition keeps_distance {A} (b : button) (g g' : N) (c : M A) : Prop :=
  forall (m : machine) (last : option N),
    (forall t0, last = Some t0 -> (t0 + g <= now m)%N) ->
    spaced b last (emitted (c m)) = true /\
    (forall a, returned (c m) = Ok a ->
       forall t0, last_press b last (emitted (c m)) = Some t0 ->
                  (t0 + g' <= now (after (c m)))%N).

(** Traces in which polls and handlers pair up: a poll that reads the
    button pressed is followed at once, at the same instant, by the handler
    of that button, and no handler starts otherwise. *)
Inductive served : list (N * event) -> Prop :=
| served_nil : served []
| served_other t e tr :
    is_button_event e = false -> served tr -> served ((t, e) :: tr)
| served_released t pin tr :
    served tr -> served ((t, GpioInput pin HIGH) :: tr)
| served_pressed t b tr :
    served tr ->
    served ((t, GpioInput (pin_of b) LOW) :: (t, Print (ButtonPressed b)) :: tr).

(** [c] only produces such traces. *)
Definition serves {A} (c : M A) : Prop := forall m, served (emitted (c m)).

(** Within [tr], two honoured presses of button [b] are more than the
    window apart. *)
Definition presses_apart (b : button) (tr : list (N * event)) : Prop :=
  forall i j t1 t2,
    i < j ->
    nth_error tr i = Some (t1, Print (ButtonPressed b)) ->
    nth_error tr j = Some (t2, Print (ButtonPressed b)) ->
    (t1 + DEBOUNCE < t2)%N.

(** Within [tr], every poll of button [b] comes at least [QUIET] after
    every earlier honoured press of [b]. *)
Definition left_alone (b : button) (tr : list (N * event)) : Prop :=
  forall i j t1 t2 lvl,
    i < j ->
    nth_error tr i = Some (t1, Print (ButtonPressed b)) ->
    nth_error tr j = Some (t2, GpioInput (pin_of b) lvl) ->
    (t1 + QUIET <= t2)%N.

(** Whether button [b] reads pressed in world [w]. *)
Definition held (w : world) (b : button) : bool :=
  level_eqb (gpio w (pin_of b)) LOW.

(** What the pins carry over time: [s pin t] is the level of [pin] at
    time [t]. *)
Definition signal : Type := N -> N -> level.

(** Every GPIO read of [tr] saw the level [s] had at that time. *)
Definition follows (s : signal) (tr : list (N * event)) : Prop :=
  Forall (fun te => match snd te with
                    | GpioInput pin lvl => lvl = s pin (fst te)
                    | _ => True
                    end) tr.

(** *** Concrete worlds *)

Definition prompt {A} (a : A) : reply A := {| took := 0; ans := Ok a |}.

Definition rested : nap := {| lag := 0; interrupted := false |}.

Definition released : N -> level := fun _ => HIGH.

Definition only (b : button) : N -> level :=
  fun pin => if (pin =? pin_of b)%N then LOW else HIGH.

(** A world in which the reader sees [tag], the table holds [rs], the
    transfer answers [transfer] and the current-playback query [playing],
    the pins read [pins], and a SIGINT arrives during the closing sleep iff
    [stop]; every other call succeeds at once. *)
Definition scene (tag : string) (rs : list row) (transfer : result unit)
    (playing : result (option bool)) (pins : N -> level) (stop : bool) : world :=
  {| reader_read := prompt tag;
     db := prompt rs;
     sp_transfer_playback := {| took := 40; ans := transfer |};
     nap_settle := rested;
     sp_start_playback := prompt tt;
     gpio := pins;
     sp_current_playback := {| took := 25; ans := playing |};
     sp_pause_playback := prompt tt;
     sp_resume_playback := prompt tt;
     nap_play_pause := rested;
     sp_next_track := prompt tt;
     nap_next := rested;
     sp_previous_track := prompt tt;
     nap_prev := rested;
     nap_loop := {| lag := 0; interrupted := stop |} |}.

Definition a_row (tag uri kind : string) : row :=
  {| col_id := 1; col_tag_id := tag; col_spotify_uri := uri;
     col_media_type := kind; col_comment := "" |}.

(** The device of the examples, a table with one tag, and some worlds. *)
Definition pi : option string := Some "raspberrypi".

Definition lullaby : list row := [a_row "42" "spotify:track:abc" "track"].

Definition w_hit : world :=
  scene "42" lullaby (Ok tt) (Ok (Some true)) released false.

Definition w_rejected : world :=
  scene "42" lullaby (Raise SpotifyException) (Ok (Some true)) released false.

Definition w_unregistered : world :=
  scene "7" lullaby (Ok tt) (Ok None) released false.

Definition w_troubled : world :=
  scene "42" lullaby (Raise SpotifyException) (Raise OtherException)
    (only PlayPause) false.

Definition w_held : world :=
  scene "42" lullaby (Ok tt) (Ok (Some true)) (only NextTrack) false.

Definition w_stop : world :=
  scene "42" lullaby (Ok tt) (Ok None) released true.

(** Tag 7 while it still has a row, and the machine after it was played. *)
Definition w_seven : world :=
  scene "7" [a_row "7" "spotify:album:def" "album"] (Ok tt) (Ok None)
    released false.

Definition m_seven : machine := after (tick pi w_seven boot).

(** An iteration in which Next reads pressed, and a signal on its pin that
    is low at time 0 and for a moment at 350 ms. *)
Definition w_pressed : world :=
  scene "7" lullaby (Ok tt) (Ok None) (only NextTrack) false.

Definition blip : signal :=
  fun pin t =>
    if ((pin =? BTN_NEXT) && ((t =? 0) || (t =? 350)))%N then LOW else HIGH.

(** *** Two sentences of the specification, word for word *)

(** "For all sequences of identical consecutive tag scans, only the first
    triggers backend calls; subsequent identical scans are no-ops": of two
    consecutive scans of one identifier, the second causes no lookup and no
    backend call. *)
Definition dedup_as_stated : Prop :=
  forall (dev : option string) (w1 w2 : world) (m : machine) (tag : string),
    ans (reader_read w1) = Ok tag ->
    ans (reader_read w2) = Ok tag ->
    returned (tick dev w1 m) = Ok tt ->
    tally tag_effect (trace (scan_tag dev w2 (after (tick dev w1 m)))) = 0.

(** "Given [media_type = track], the controller issues a single-URI start
    call; given [album] or [playlist], it issues a context-URI start call;
    given any other value, no backend call is made." *)
Definition dispatch_as_stated : Prop :=
  forall (dev : option string) (w : world) (uri mt : string) (m : machine),
    let tr := trace (play_media dev w uri mt m) in
    (mt = "track" ->
       In (Spotify (start_playback dev None (Some [uri]))) tr) /\
    (mt = "album" \/ mt = "playlist" ->
       In (Spotify (start_playback dev (Some uri) None)) tr) /\
    (mt <> "track" -> mt <> "album" -> mt <> "playlist" ->
       In (Print (UnknownMediaType mt uri)) tr /\
       tally is_backend_call tr = 0).

(** A world whose scan is of [tag] and finds no row for it. *)
Definition misses (tag : string) (w : world) : Prop :=
  ans (reader_read w) = Ok tag /\
  exists rs, ans (db w) = Ok rs /\ Forall (fun r => col_tag_id r <> tag) rs.

(** "Given a tag identifier absent from the registry, no backend call is
    made and the loop continues polling"; "a miss is reported, not fatal":
    whenever the scanned tag has no row, the handling of the scan makes no
    backend call, prints the miss and raises nothing. *)
Definition miss_as_stated : Prop :=
  forall (dev : option string) (w : world) (m : machine) (tag : string),
    misses tag w ->
    let r := scan_tag dev w m in
    tally is_backend_call (trace r) = 0 /\
    In (Print TagNotFound) (trace r) /\
    returned r = Ok tt.

(** "An unregistered tag is not recorded in the duplicate-suppression slot
    and every subsequent scan of it performs a fresh registry lookup (and is
    logged again) rather than being suppressed as a duplicate": after an
    iteration that scanned a tag without a row, the slot is as before and
    the next scan of the tag, still without a row, is looked up and the
    miss is printed. *)
Definition miss_rescan_as_stated : Prop :=
  forall (dev : option string) (w w' : world) (m : machine) (tag : string),
    misses tag w -> misses tag w' ->
    let r := tick dev w m in
    last_tag_id (after r) = last_tag_id m /\
    (returned r = Ok tt ->
     trace (scan_tag dev w' (after r))
     = [ReaderRead; Print (TagScanned tag); Select tag; Print TagNotFound]).

(** "Presses separated by more than the window are both honored": in a run
    whose GPIO reads follow the signal [s], when a press of [b] was honoured
    at [t1] and the button is pressed again at [t2], more than the window
    later and more than the window before the run ends, then a press of
    [b] is honoured at [t2] or later. *)
Definition debounce_as_stated : Prop :=
  forall (dev : option string) (ws : list world) (m : machine) (s : signal)
         (b : button) (t1 t2 : N),
    let r := loop dev ws m in
    returned r = Ok tt ->
    follows s (emitted r) ->
    In (t1, Print (ButtonPressed b)) (emitted r) ->
    (t1 + DEBOUNCE < t2)%N ->
    (t2 + DEBOUNCE < now (after r))%N ->
    s (pin_of b) t2 = LOW ->
    exists t, (t2 <= t)%N /\ In (t, Print (ButtonPressed b)) (emitted r).

(** *** Vocabulary of the further properties *)

(** A world whose scan is of [tag] and finds a row for it. *)
Definition finds (tag : string) (w : world) : Prop :=
  ans (reader_read w) = Ok tag /\
  exists rs, ans (db w) = Ok rs /\ fetchone (select_by_tag rs tag) <> None.

Definition is_input (e : event) : bool :=
  match e with GpioInput _ _ => true | _ => false end.

(** The polls of one iteration, in the order of the loop body. *)
Definition polls_of (w : world) : list event :=
  [GpioInput BTN_PLAY_PAUSE (gpio w BTN_PLAY_PAUSE);
   GpioInput BTN_NEXT (gpio w BTN_NEXT);
   GpioInput BTN_PREV (gpio w BTN_PREV)].

Definition all_buttons : list button := [PlayPause; NextTrack; PreviousTrack].

Definition held_count (w : world) : N :=
  N.of_nat (length (filter (held w) all_buttons)).

(** The least an iteration lasts in world [w]: the loop delay, and the
    debounce sleep of every button that reads pressed. *)
Definition least_duration (w : world) : N := 100 + 300 * held_count w.

(** [c], when it returns, has taken at least [d] milliseconds. *)
Definition takes_at_least {A} (d : N) (c : M A) : Prop :=
  forall m a, returned (c m) = Ok a -> (now m + d <= now (after (c m)))%N.

Definition is_unknown_line (e : event) : bool :=
  match e with Print (UnknownMediaType _ _) => true | _ => false end.

(** The commands of the three buttons. *)
Definition is_button_command (e : event) : bool :=
  match e with
  | Spotify current_playback | Spotify pause_playback
  | Spotify next_track | Spotify previous_track
  | Spotify (start_playback _ None None) => true
  | _ => false
  end.

(** World [w] with another answer of the reader, of the registry, of the
    start call. *)
Definition with_reader (r : reply string) (w : world) : world :=
  {| reader_read := r;
     db := db w;
     sp_transfer_playback := sp_transfer_playback w;
     nap_settle := nap_settle w;
     sp_start_playback := sp_start_playback w;
     gpio := gpio w;
     sp_current_playback := sp_current_playback w;
     sp_pause_playback := sp_pause_playback w;
     sp_resume_playback := sp_resume_playback w;
     nap_play_pause := nap_play_pause w;
     sp_next_track := sp_next_track w;
     nap_next := nap_next w;
     sp_previous_track := sp_previous_track w;
     nap_prev := nap_prev w;
     nap_loop := nap_loop w |}.

Definition with_db (r : reply (list row)) (w : world) : world :=
  {| reader_read := reader_read w;
     db := r;
     sp_transfer_playback := sp_transfer_playback w;
     nap_settle := nap_settle w;
     sp_start_playback := sp_start_playback w;
     gpio := gpio w;
     sp_current_playback := sp_current_playback w;
     sp_pause_playback := sp_pause_playback w;
     sp_resume_playback := sp_resume_playback w;
     nap_play_pause := nap_play_pause w;
     sp_next_track := sp_next_track w;
     nap_next := nap_next w;
     sp_previous_track := sp_previous_track w;
     nap_prev := nap_prev w;
     nap_loop := nap_loop w |}.

Definition with_start (r : reply unit) (w : world) : world :=
  {| reader_read := reader_read w;
     db := db w;
     sp_transfer_playback := sp_transfer_playback w;
     nap_settle := nap_settle w;
     sp_start_playback := r;
     gpio := gpio w;
     sp_current_playback := sp_current_playback w;
     sp_pause_playback := sp_pause_playback w;
     sp_resume_playback := sp_resume_playback w;
     nap_play_pause := nap_play_pause w;
     sp_next_track := sp_next_track w;
     nap_next := nap_next w;
     sp_previous_track := sp_previous_track w;
     nap_prev := nap_prev w;
     nap_loop := nap_loop w |}.

Definition broken {A} : reply A := {| took := 5; ans := Raise OtherException |}.

End PlayerSpec.

Module AppSpec.
Import Registry App.

Fixpoint all_alnum (s : string) : bool :=
  match s with
  | EmptyString => true
  | String c s' => is_alnum c && all_alnum s'
  end.

Definition starts_alnum (s : string) : bool :=
  match s with
  | EmptyString => false
  | String c _ => is_alnum c
  end.

(** The pattern in the words of the specification:
    [open.spotify.com/(track|album|playlist)/<base62-id>], found in [link]
    after [pre] with type [media_type], an identifier [uri_id] of one or
    more letters and digits, and [post] after it. *)
Definition occurs_at (link pre media_type uri_id post : string) : Prop :=
  link = pre ++ "open.spotify.com/" ++ media_type ++ "/" ++ uri_id ++ post /\
  In media_type media_types /\
  uri_id <> "" /\
  all_alnum uri_id = true.

(** The occurrence a search reports: the leftmost one, with the identifier
    taken as far as it goes. *)
Definition first_match (link pre media_type uri_id post : string) : Prop :=
  occurs_at link pre media_type uri_id post /\
  starts_alnum post = false /\
  forall pre' media_type' uri_id' post',
    occurs_at link pre' media_type' uri_id' post' ->
    String.length pre <= String.length pre'.

Definition no_match (link : string) : Prop :=
  forall pre media_type uri_id post, ~ occurs_at link pre media_type uri_id post.

(** The canonical URI of the specification: [spotify:<type>:<id>]. *)
Definition canonical_uri (media_type uri_id : string) : string :=
  "spotify:" ++ media_type ++ ":" ++ uri_id.

Definition example_form : form :=
  {| form_tag_id := "584190432352";
     form_spotify_link := "https://open.spotify.com/track/abc123";
     form_comment := "bedtime song" |}.

Definition empty_table : table := {| rows := []; last_rowid := 0 |}.

(** *** Vocabulary of the further properties *)

(** What the player's lookup finds for [tag] in table [t]. *)
Definition plays (t : table) (tag : string) : option (string * string) :=
  Player.fetchone (Player.select_by_tag (rows t) tag).

(** Every row carries one of the media types the player dispatches on. *)
Definition known_types (t : table) : Prop :=
  Forall (fun r => In (col_media_type r) media_types) (rows t).

Definition ids (t : table) : list N := map col_id (rows t).

(** The row a form comes to once its link gave [uri] and [media_type]. *)
Definition row_from (id : N) (f : form) (uri media_type : string) : row :=
  {| col_id := id; col_tag_id := form_tag_id f; col_spotify_uri := uri;
     col_media_type := media_type; col_comment := form_comment f |}.

(** The row with key [id], if the table has one. *)
Definition row_of (t : table) (id : N) : option row :=
  find (fun r => (col_id r =? id)%N) (rows t).

(** A table as SQLite keeps it: keys are unique and none exceeds the
    AUTOINCREMENT counter. *)
Definition keyed (t : table) : Prop :=
  NoDup (ids t) /\ Forall (fun i => (i <= last_rowid t)%N) (ids t).

Definition second_form : form :=
  {| form_tag_id := "584190432352";
     form_spotify_link := "https://open.spotify.com/album/xyz789?si=1";
     form_comment := "audio book" |}.

(** The table after the example form was added, and after the second one
    (for the same tag) was added too. *)
Definition one_tag : table := snd (add example_form empty_table).

Definition two_tags : table := snd (add second_form one_tag).

Definition bad_form : form :=
  {| form_tag_id := "77";
     form_spotify_link := "https://example.com/track/abc123";
     form_comment := "" |}.

End AppSpec.

(** ** Properties of player.py *)

Module PlayerFacts.
Import Registry Player PlayerSpec.
#[local] Open Scope list_scope.

Lemma option_string_eqb_refl (a : option string) : option_string_eqb a a = true.
Proof. destruct a as [s|]; simpl; [apply String.eqb_refl | reflexivity]. Qed.

Lemma option_string_eqb_eq (a b : option string) :
  option_string_eqb a b = true <-> a = b.
Proof.
  destruct a as [x|], b as [y|]; simpl; split; intros H;
    try discriminate; try reflexivity.
  - apply String.eqb_eq in H. now subst.
  - injection H as ->. apply String.eqb_refl.
Qed.

Lemma option_string_eqb_neq (a b : option string) :
  a <> b -> option_string_eqb a b = false.
Proof.
  intros H. destruct (option_string_eqb a b) eqn:E; [|reflexivity].
  apply option_string_eqb_eq in E. contradiction.
Qed.

Arguments option_string_eqb : simpl never.

(** Unfolds the primitives of the monad. *)
Ltac monad :=
  unfold sleep, call, print, GPIO_input, GPIO_cleanup, answer,
    try_except, try_finally, bind, ret, raise, emit, elapse,
    get_last_tag_id, set_last_tag_id, trace.

(** *** Closure of the event, clock and state disciplines under the monad *)

Section Disciplines.

Context {A B : Type}.
Variable p : event -> bool.

Lemma emits_ret (a : A) : emits p (ret a).
Proof. intros m. reflexivity. Qed.

Lemma emits_raise (e : exn) : emits p (@raise A e).
Proof. intros m. reflexivity. Qed.

Lemma emits_bind (c : M A) (k : A -> M B) :
  emits p c -> (forall a, emits p (k a)) -> emits p (bind c k).
Proof.
  intros Hc Hk m. unfold bind. specialize (Hc m).
  destruct (c m) as [[a|e] m1 t1]; cbn in *; [|assumption].
  specialize (Hk a m1). destruct (k a m1) as [r m2 t2]; cbn in *.
  rewrite forallb_app, Hc, Hk. reflexivity.
Qed.

Lemma emits_try_except (c : M A) (class : exn -> bool) (h : exn -> M A) :
  emits p c -> (forall e, emits p (h e)) -> emits p (try_except c class h).
Proof.
  intros Hc Hh m. unfold try_except. specialize (Hc m).
  destruct (c m) as [[a|e] m1 t1]; cbn in *; [assumption|].
  destruct (class e); [|assumption].
  specialize (Hh e m1). destruct (h e m1) as [r m2 t2]; cbn in *.
  rewrite forallb_app, Hc, Hh. reflexivity.
Qed.

Lemma emits_emit (e : event) : p e = true -> emits p (emit e).
Proof. intros H m. cbn. now rewrite H. Qed.

Lemma emits_elapse (d : N) : emits p (elapse d).
Proof. intros m. reflexivity. Qed.

Lemma emits_answer (r : result A) : emits p (answer r).
Proof. destruct r; intros m; reflexivity. Qed.

Lemma timely_ret (a : A) : timely (ret a).
Proof. intros m. cbn. split; [lia | constructor]. Qed.

Lemma timely_raise (e : exn) : timely (@raise A e).
Proof. intros m. cbn. split; [lia | constructor]. Qed.

Lemma timely_bind (c : M A) (k : A -> M B) :
  timely c -> (forall a, timely (k a)) -> timely (bind c k).
Proof.
  intros Hc Hk m. unfold bind. destruct (Hc m) as [Hn Ht].
  destruct (c m) as [[a|e] m1 t1]; cbn in *; [|auto].
  destruct (Hk a m1) as [Hn' Ht']. destruct (k a m1) as [r m2 t2]; cbn in *.
  split; [lia|]. apply Forall_app. split; [assumption|].
  eapply Forall_impl; [|exact Ht']. cbn. intros te H. lia.
Qed.

Lemma timely_try_except (c : M A) (class : exn -> bool) (h : exn -> M A) :
  timely c -> (forall e, timely (h e)) -> timely (try_except c class h).
Proof.
  intros Hc Hh m. unfold try_except. destruct (Hc m) as [Hn Ht].
  destruct (c m) as [[a|e] m1 t1]; cbn in *; [auto|].
  destruct (class e); [|auto].
  destruct (Hh e m1) as [Hn' Ht']. destruct (h e m1) as [r m2 t2]; cbn in *.
  split; [lia|]. apply Forall_app. split; [assumption|].
  eapply Forall_impl; [|exact Ht']. cbn. intros te H. lia.
Qed.

Lemma timely_answer (r : result A) : timely (answer r).
Proof. destruct r; [apply timely_ret | apply timely_raise]. Qed.

Lemma keeps_ret (a : A) : keeps_tag (ret a).
Proof. intros m. reflexivity. Qed.

Lemma keeps_raise (e : exn) : keeps_tag (@raise A e).
Proof. intros m. reflexivity. Qed.

Lemma keeps_bind (c : M A) (k : A -> M B) :
  keeps_tag c -> (forall a, keeps_tag (k a)) -> keeps_tag (bind c k).
Proof.
  intros Hc Hk m. unfold bind. specialize (Hc m).
  destruct (c m) as [[a|e] m1 t1]; cbn in *; [|assumption].
  specialize (Hk a m1). destruct (k a m1) as [r m2 t2]; cbn in *. congruence.
Qed.

Lemma keeps_try_except (c : M A) (class : exn -> bool) (h : exn -> M A) :
  keeps_tag c -> (forall e, keeps_tag (h e)) -> keeps_tag (try_except c class h).
Proof.
  intros Hc Hh m. unfold try_except. specialize (Hc m).
  destruct (c m) as [[a|e] m1 t1]; cbn in *; [assumption|].
  destruct (class e); [|assumption].
  specialize (Hh e m1). destruct (h e m1) as [r m2 t2]; cbn in *. congruence.
Qed.

Lemma keeps_answer (r : result A) : keeps_tag (answer r).
Proof. destruct r; intros m; reflexivity. Qed.

End Disciplines.

Lemma timely_emit (e : event) : timely (emit e).
Proof. intros m. cbn. split; [lia|]. repeat constructor. cbn. lia. Qed.

Lemma timely_elapse (d : N) : timely (elapse d).
Proof. intros m. cbn. split; [lia | constructor]. Qed.

Lemma timely_get : timely get_last_tag_id.
Proof. intros m. cbn. split; [lia | constructor]. Qed.

Lemma timely_set (t : string) : timely (set_last_tag_id t).
Proof. intros m. cbn. split; [lia | constructor]. Qed.

Lemma emits_get (p : event -> bool) : emits p get_last_tag_id.
Proof. intros m. reflexivity. Qed.

Lemma emits_set (p : event -> bool) (t : string) : emits p (set_last_tag_id t).
Proof. intros m. reflexivity. Qed.

Lemma keeps_emit (e : event) : keeps_tag (emit e).
Proof. intros m. reflexivity. Qed.

Lemma keeps_elapse (d : N) : keeps_tag (elapse d).
Proof. intros m. reflexivity. Qed.

Create HintDb script discriminated.

#[export] Hint Resolve emits_ret emits_raise emits_bind emits_try_except
  emits_elapse emits_answer emits_get emits_set
  timely_ret timely_raise timely_bind timely_try_except timely_answer
  timely_emit timely_elapse timely_get timely_set
  keeps_ret keeps_raise keeps_bind keeps_try_except keeps_answer
  keeps_emit keeps_elapse : script.

(** Proves a discipline of a piece of the script from the closure lemmas;
    what is left are the classes of the events it emits. *)
Ltac open_step :=
  unfold tick, poll_buttons, poll_play_pause, poll_next, poll_prev,
    scan_tag, play_media, get_tag_data, handle_play_pause, handle_next,
    handle_previous.

Ltac discipline :=
  intros; open_step;
  repeat match goal with
  | |- forall _, _ => intro
  | |- _ (call _ _) => unfold call
  | |- _ (sleep _ _) => unfold sleep
  | |- _ (print _) => unfold print
  | |- _ (GPIO_input _ _) => unfold GPIO_input
  | |- emits _ (bind _ _) => apply emits_bind
  | |- emits _ (try_except _ _ _) => apply emits_try_except
  | |- emits _ (emit _) => apply emits_emit
  | |- timely (bind _ _) => apply timely_bind
  | |- timely (try_except _ _ _) => apply timely_try_except
  | |- keeps_tag (bind _ _) => apply keeps_bind
  | |- keeps_tag (try_except _ _ _) => apply keeps_try_except
  | |- _ (if ?b then _ else _) => destruct b
  | |- _ (match ?x with _ => _ end) => destruct x
  | |- _ => solve [auto with script]
  end.

Section Whole.

Variable DEVICE_ID : option string.

Lemma timely_tick (w : world) : timely (tick DEVICE_ID w).
Proof. discipline. Qed.

Lemma timely_loop (ws : list world) : timely (loop DEVICE_ID ws).
Proof.
  induction ws as [|w ws IH]; cbn; [apply timely_ret|].
  apply timely_bind; [apply timely_tick | intros _; exact IH].
Qed.

Lemma keeps_tag_poll_buttons (w : world) : keeps_tag (poll_buttons w).
Proof. discipline. Qed.

Lemma keeps_tag_play_media (w : world) (uri mt : string) :
  keeps_tag (play_media DEVICE_ID w uri mt).
Proof. discipline. Qed.

Lemma keeps_tag_sleep (ms : N) (n : nap) : keeps_tag (sleep ms n).
Proof. discipline. Qed.

Lemma scan_emits_no_button_event (w : world) :
  emits (fun e => negb (is_button_event e)) (scan_tag DEVICE_ID w).
Proof. discipline; reflexivity. Qed.

Lemma loop_emits_no_cleanup (ws : list world) :
  emits (fun e => negb (is_cleanup e)) (loop DEVICE_ID ws).
Proof.
  induction ws as [|w ws IH]; cbn; [apply emits_ret|].
  apply emits_bind; [|intros _; exact IH].
  discipline; reflexivity.
Qed.

End Whole.

(** *** One scan of a tag *)

Section OneScan.

Variable DEVICE_ID : option string.

Lemma no_row_fetches_nothing (rs : list row) (tag : string) :
  Forall (fun r => col_tag_id r <> tag) rs ->
  fetchone (select_by_tag rs tag) = None.
Proof.
  unfold select_by_tag. induction 1 as [|r rs Hr _ IH]; cbn; [reflexivity|].
  destruct (String.eqb_spec (col_tag_id r) tag); [contradiction | exact IH].
Qed.

(** The scan of a tag that is already in [last_tag_id] only prints the
    duplicate notice. *)
Lemma scan_duplicate (w : world) (m : machine) (tag : string) :
  ans (reader_read w) = Ok tag ->
  last_tag_id m = Some tag ->
  let r := scan_tag DEVICE_ID w m in
  returned r = Ok tt /\ last_tag_id (after r) = Some tag /\
  trace r = [ReaderRead; Print DuplicateScan].
Proof.
  intros Hread Hlast. unfold scan_tag. monad. cbn. rewrite Hread. cbn.
  rewrite Hlast, option_string_eqb_refl. cbn. auto.
Qed.

(** The scan of any other tag prints it and looks it up. *)
Lemma scan_new_looks_up (w : world) (m : machine) (tag : string) :
  ans (reader_read w) = Ok tag ->
  last_tag_id m <> Some tag ->
  exists rest,
    trace (scan_tag DEVICE_ID w m)
    = ReaderRead :: Print (TagScanned tag) :: Select tag :: rest.
Proof.
  intros Hread Hlast. unfold scan_tag, get_tag_data. monad. cbn.
  rewrite Hread. cbn. rewrite option_string_eqb_neq by congruence. cbn.
  destruct (ans (db w)) as [rs|e]; cbn.
  - destruct (fetchone (select_by_tag rs tag)) as [[uri mt]|]; cbn.
    + destruct (play_media DEVICE_ID w uri mt _) as [[[]|e] m' t]; cbn;
        [|destruct (isinstance_Exception e)]; cbn; eexists; reflexivity.
    + eexists. reflexivity.
  - destruct (isinstance_Exception e); cbn; eexists; reflexivity.
Qed.

(** A scan whose lookup finds a row and whose [play_media] returns records
    the tag. *)
Lemma scan_hit (w : world) (m : machine) (tag uri mt : string) (rs : list row) :
  ans (reader_read w) = Ok tag ->
  last_tag_id m <> Some tag ->
  ans (db w) = Ok rs ->
  fetchone (select_by_tag rs tag) = Some (uri, mt) ->
  let m1 := {| last_tag_id := last_tag_id m;
               now := now m + took (reader_read w) + took (db w) |} in
  let r := scan_tag DEVICE_ID w m in
  let r1 := play_media DEVICE_ID w uri mt m1 in
  trace r = [ReaderRead; Print (TagScanned tag); Select tag; Print (Playing mt uri)]
            ++ trace r1
            ++ match returned r1 with
               | Raise e => if isinstance_Exception e then [Print (AuthError e)] else []
               | Ok _ => []
               end
  /\ last_tag_id (after r)
     = match returned r1 with Ok _ => Some tag | Raise _ => last_tag_id m end
  /\ returned r
     = match returned r1 with
       | Raise e => if isinstance_Exception e then Ok tt else Raise e
       | Ok _ => Ok tt
       end.
Proof.
  intros Hread Hlast Hdb Hrow. unfold scan_tag, get_tag_data. monad. cbn.
  rewrite Hread. cbn. rewrite option_string_eqb_neq by congruence. cbn.
  rewrite Hdb. cbn. rewrite Hrow. cbn.
  pose proof (keeps_tag_play_media DEVICE_ID w uri mt
    {| last_tag_id := last_tag_id m;
       now := now m + took (reader_read w) + took (db w) |}) as Hk.
  destruct (play_media DEVICE_ID w uri mt _) as [[[]|e] m' t]; cbn in *.
  - rewrite !app_nil_r. auto.
  - destruct (isinstance_Exception e); cbn; rewrite ?map_app, ?app_nil_r; auto.
Qed.

(** A scan whose lookup finds no row. *)
Lemma scan_miss (w : world) (m : machine) (tag : string) (rs : list row) :
  ans (reader_read w) = Ok tag ->
  last_tag_id m <> Some tag ->
  ans (db w) = Ok rs ->
  Forall (fun r => col_tag_id r <> tag) rs ->
  let r := scan_tag DEVICE_ID w m in
  returned r = Ok tt /\ last_tag_id (after r) = last_tag_id m /\
  trace r = [ReaderRead; Print (TagScanned tag); Select tag; Print TagNotFound].
Proof.
  intros Hread Hlast Hdb Hrow. unfold scan_tag, get_tag_data. monad. cbn.
  rewrite Hread. cbn. rewrite option_string_eqb_neq by congruence. cbn.
  rewrite Hdb. cbn. rewrite (no_row_fetches_nothing _ _ Hrow). cbn. auto.
Qed.

(** [play_media] when the transfer raises [SpotifyException]. *)
Lemma play_media_transfer_rejected (w : world) (m : machine) (uri mt : string) :
  ans (sp_transfer_playback w) = Raise SpotifyException ->
  let r := play_media DEVICE_ID w uri mt m in
  returned r = Ok tt /\
  trace r = [Spotify (transfer_playback DEVICE_ID true); Print TransferFailed].
Proof.
  intros Hx. unfold play_media. monad. cbn. rewrite Hx. cbn. auto.
Qed.

(** [play_media] when the transfer raises anything else. *)
Lemma play_media_transfer_broken (w : world) (m : machine) (uri mt : string) (e : exn) :
  ans (sp_transfer_playback w) = Raise e ->
  e <> SpotifyException ->
  let r := play_media DEVICE_ID w uri mt m in
  returned r = Raise e /\
  trace r = [Spotify (transfer_playback DEVICE_ID true)].
Proof.
  intros Hx He. unfold play_media. monad. cbn. rewrite Hx. cbn.
  destruct e; cbn; auto. congruence.
Qed.

Lemma tally_app (p : event -> bool) (l1 l2 : list event) :
  tally p (l1 ++ l2) = tally p l1 + tally p l2.
Proof. unfold tally. now rewrite filter_app, length_app. Qed.

Lemma emits_none (p : event -> bool) {A} (c : M A) (m : machine) :
  emits (fun e => negb (p e)) c -> tally p (trace (c m)) = 0.
Proof.
  intros H. specialize (H m). unfold tally, trace.
  induction (emitted (c m)) as [|[t e] l IH]; cbn in *; [reflexivity|].
  apply andb_prop in H. destruct H as [He Hl].
  destruct (p e); [discriminate | auto].
Qed.

Lemma play_media_no_lookup (w : world) (uri mt : string) :
  emits (fun e => negb (is_lookup e)) (play_media DEVICE_ID w uri mt).
Proof. discipline; reflexivity. Qed.

(** C1 (what the code does where the claim fails).  When the scan of a new
    tag finds its row and the transfer call is rejected with a
    [SpotifyException], [play_media] swallows the failure and returns, so
    the loop body goes on to store the tag: after the scan [last_tag_id] is
    the scanned tag, not its former value, and a rescan of the same tag is
    dropped as a duplicate without any transfer being tried again. *)
Theorem rejected_transfer_still_records_tag
    (w : world) (m : machine) (tag uri mt : string) (rs : list row) :
  ans (reader_read w) = Ok tag ->
  last_tag_id m <> Some tag ->
  ans (db w) = Ok rs ->
  fetchone (select_by_tag rs tag) = Some (uri, mt) ->
  ans (sp_transfer_playback w) = Raise SpotifyException ->
  let r := scan_tag DEVICE_ID w m in
  trace r = [ReaderRead; Print (TagScanned tag); Select tag;
             Print (Playing mt uri);
             Spotify (transfer_playback DEVICE_ID true);
             Print TransferFailed] /\
  last_tag_id (after r) = Some tag /\
  last_tag_id (after r) <> last_tag_id m /\
  forall w', ans (reader_read w') = Ok tag ->
    trace (scan_tag DEVICE_ID w' (after r)) = [ReaderRead; Print DuplicateScan].
Proof.
  intros Hread Hlast Hdb Hrow Hx. cbv zeta.
  destruct (scan_hit w m tag uri mt rs Hread Hlast Hdb Hrow) as (Htr & Hl & _).
  match type of Htr with context [play_media _ _ _ _ ?m1] =>
    destruct (play_media_transfer_rejected w m1 uri mt Hx) as (Hr1 & Ht1)
  end.
  rewrite Hr1 in Htr, Hl. rewrite Ht1 in Htr. rewrite Htr, Hl.
  repeat split; [congruence|].
  intros w' Hread'. now apply (scan_duplicate w' _ tag Hread' Hl).
Qed.

(** The sibling path: a transfer that fails with any other exception
    leaves [last_tag_id] as it was. *)
Lemma broken_transfer_keeps_tag
    (w : world) (m : machine) (tag uri mt : string) (rs : list row) (e : exn) :
  ans (reader_read w) = Ok tag ->
  last_tag_id m <> Some tag ->
  ans (db w) = Ok rs ->
  fetchone (select_by_tag rs tag) = Some (uri, mt) ->
  ans (sp_transfer_playback w) = Raise e ->
  e <> SpotifyException ->
  last_tag_id (after (scan_tag DEVICE_ID w m)) = last_tag_id m.
Proof.
  intros Hread Hlast Hdb Hrow Hx He.
  destruct (scan_hit w m tag uri mt rs Hread Hlast Hdb Hrow) as (_ & Hl & _).
  match type of Hl with context [play_media _ _ _ _ ?m1] =>
    destruct (play_media_transfer_broken w m1 uri mt e Hx He) as (Hr1 & _)
  end.
  now rewrite Hr1 in Hl.
Qed.

(** C3 (amended).  [play_media] always begins with the transfer call.  Once
    the transfer has succeeded and the settle sleep has passed: for
    [media_type = "track"] the next event is a start call with the single
    URI in [uris]; for ["album"] or ["playlist"] it is a start call with the
    URI as [context_uri]; in both cases no further backend call follows.
    For any other [media_type] the unknown type is printed and no start call
    is made: the transfer stays the only backend call. *)
Theorem play_media_dispatch (w : world) (uri mt : string) (m : machine) :
  ans (sp_transfer_playback w) = Ok tt ->
  interrupted (nap_settle w) = false ->
  let tr := trace (play_media DEVICE_ID w uri mt m) in
  let transfer := Spotify (transfer_playback DEVICE_ID true) in
  (mt = "track" ->
     exists rest,
       tr = [transfer; Sleep 1000;
             Spotify (start_playback DEVICE_ID None (Some [uri]))] ++ rest /\
       tally is_backend_call rest = 0) /\
  (mt = "album" \/ mt = "playlist" ->
     exists rest,
       tr = [transfer; Sleep 1000;
             Spotify (start_playback DEVICE_ID (Some uri) None)] ++ rest /\
       tally is_backend_call rest = 0) /\
  (mt <> "track" -> mt <> "album" -> mt <> "playlist" ->
     tr = [transfer; Sleep 1000; Print (UnknownMediaType mt uri)] /\
     tally is_start_call tr = 0 /\
     tally is_backend_call tr = 1).
Proof.
  intros Hx Hnap. cbv zeta. unfold play_media. monad. cbn.
  rewrite Hx. cbn. rewrite Hnap. cbn.
  repeat split.
  - intros ->. cbn.
    destruct (ans (sp_start_playback w)) as [[]|e]; cbn;
      [|destruct (isinstance_Exception e); cbn]; eexists; split;
      reflexivity.
  - intros [-> | ->]; cbn;
      (destruct (ans (sp_start_playback w)) as [[]|e]; cbn;
       [|destruct (isinstance_Exception e); cbn]; eexists; split;
       reflexivity).
  - destruct (String.eqb_spec mt "track"); [contradiction|].
    destruct (String.eqb_spec mt "album"); [contradiction|].
    destruct (String.eqb_spec mt "playlist"); [contradiction|].
    cbn. reflexivity.
  - destruct (String.eqb_spec mt "track"); [contradiction|].
    destruct (String.eqb_spec mt "album"); [contradiction|].
    destruct (String.eqb_spec mt "playlist"); [contradiction|].
    cbn. reflexivity.
  - destruct (String.eqb_spec mt "track"); [contradiction|].
    destruct (String.eqb_spec mt "album"); [contradiction|].
    destruct (String.eqb_spec mt "playlist"); [contradiction|].
    cbn. reflexivity.
Qed.

End OneScan.

End PlayerFacts.

(** *** Failures stay inside the iteration *)

Module Containment.
Import Registry Player PlayerSpec PlayerFacts.
#[local] Open Scope list_scope.

Section OneTick.

Variable DEVICE_ID : option string.

Lemma contains_bind (w : world) (c k : M unit) :
  contains w c -> contains w k -> contains w (c ;; k).
Proof.
  intros Hc Hk m. specialize (Hc m). unfold bind, trace in *.
  destruct (c m) as [r1 m1 t1]. cbn [returned emitted after] in *.
  destruct Hc as [-> Ht]. specialize (Hk m1).
  destruct (k m1) as [r2 m2 t2]. cbn [returned emitted after] in *.
  destruct Hk as [-> Ht']. split; [reflexivity|].
  unfold trace in Ht'. cbn [emitted] in Ht'.
  rewrite map_app, !tally_app. congruence.
Qed.

Lemma owes_bind {A B} (w : world) (c : M A) (k : A -> M B) :
  owes_at_most_one w c -> (forall a, owes_at_most_one w (k a)) ->
  owes_at_most_one w (bind c k).
Proof.
  intros Hc Hk m. specialize (Hc m). unfold bind, trace in *.
  destruct (c m) as [[a|e] m1 t1]; cbn [returned emitted after] in *;
    [|assumption].
  specialize (Hk a m1). unfold trace in Hk.
  destruct (k a m1) as [[b|e] m2 t2];
    cbn [returned emitted after] in *; rewrite map_app, !tally_app.
  - congruence.
  - destruct Hk as [He Hk]. split; [assumption|].
    rewrite <- Hk, Hc. apply plus_n_Sm.
Qed.

Lemma owes_try_except {A} (w : world) (c : M A) (class : exn -> bool)
    (h : exn -> M A) :
  owes_at_most_one w c -> (forall e, settles w (h e)) ->
  owes_at_most_one w (try_except c class h).
Proof.
  intros Hc Hh m. specialize (Hc m). unfold try_except, trace in *.
  destruct (c m) as [[a|e] m1 t1]; cbn [returned emitted after] in *;
    [assumption|].
  destruct (class e); cbn [returned emitted after]; [|assumption].
  destruct (Hh e m1) as ([a Ha] & He & Hf). unfold trace in *.
  destruct (h e m1) as [r m2 t2]; cbn [returned emitted after] in *.
  subst r. rewrite map_app, !tally_app, He, Hf. destruct Hc as [_ Hc].
  rewrite <- Hc. now rewrite Nat.add_1_r, Nat.add_0_r.
Qed.

(** A handler for every [Exception] clears the debt. *)
Lemma contains_try_except (w : world) (c : M unit) (h : exn -> M unit) :
  owes_at_most_one w c -> (forall e, settles w (h e)) ->
  contains w (try_except c isinstance_Exception h).
Proof.
  intros Hc Hh m.
  pose proof (owes_try_except w c isinstance_Exception h Hc Hh m) as H.
  specialize (Hc m). unfold try_except in *.
  destruct (c m) as [[[]|e] m1 t1]; cbn [returned emitted after] in *;
    [auto|].
  destruct Hc as [He _]. rewrite He in *.
  destruct (Hh e m1) as ([[] Ha] & _). destruct (h e m1) as [r m2 t2].
  cbn [returned emitted after] in *. subst r. auto.
Qed.

Lemma owes_ret {A} (w : world) (a : A) : owes_at_most_one w (ret a).
Proof. intros m. reflexivity. Qed.

Lemma owes_get (w : world) : owes_at_most_one w get_last_tag_id.
Proof. intros m. reflexivity. Qed.

Lemma owes_set (w : world) (t : string) : owes_at_most_one w (set_last_tag_id t).
Proof. intros m. reflexivity. Qed.

Lemma owes_print (w : world) (l : line) :
  is_error_line (Print l) = false -> owes_at_most_one w (print l).
Proof.
  intros H m. unfold tally. cbn -[is_error_line is_failed_call].
  now rewrite H.
Qed.

Lemma owes_call {A} (w : world) (e : event) (r : reply A) :
  is_error_line e = false ->
  is_failed_call w e = failed r ->
  signalled r = false ->
  owes_at_most_one w (call e r).
Proof.
  intros He Hf Hs m. unfold call, failed, signalled in *. monad.
  unfold tally.
  destruct (ans r) as [a|x]; cbn -[is_error_line is_failed_call];
    rewrite He, Hf; cbn.
  - reflexivity.
  - split; [now destruct (isinstance_Exception x) | reflexivity].
Qed.

Lemma owes_sleep (w : world) (ms : N) (n : nap) :
  interrupted n = false -> owes_at_most_one w (sleep ms n).
Proof. intros H m. unfold sleep. monad. cbn. rewrite H. reflexivity. Qed.

Lemma owes_input (w : world) (pin : N) : owes_at_most_one w (GPIO_input w pin).
Proof. intros m. reflexivity. Qed.

Lemma settles_print (w : world) (l : line) :
  is_error_line (Print l) = true -> settles w (print l).
Proof.
  intros H m. unfold tally. cbn -[is_error_line is_failed_call].
  rewrite H. destruct l; try discriminate; eauto.
Qed.

Lemma settles_print_ret {A} (w : world) (l : line) (a : A) :
  is_error_line (Print l) = true -> settles w (print l ;; ret a).
Proof.
  intros H m. unfold tally. cbn -[is_error_line is_failed_call].
  rewrite H. destruct l; try discriminate; eauto.
Qed.

Lemma contains_of_owes (w : world) (c : M unit) :
  owes_at_most_one w c -> (forall m, returned (c m) = Ok tt) -> contains w c.
Proof.
  intros Ho Hr m. split; [apply Hr|]. specialize (Ho m). now rewrite Hr in Ho.
Qed.

Lemma undisturbed_inv (w : world) :
  undisturbed w = true ->
  signalled (reader_read w) = false /\ signalled (db w) = false /\
  signalled (sp_transfer_playback w) = false /\
  interrupted (nap_settle w) = false /\
  signalled (sp_start_playback w) = false /\
  signalled (sp_current_playback w) = false /\
  signalled (sp_pause_playback w) = false /\
  signalled (sp_resume_playback w) = false /\
  interrupted (nap_play_pause w) = false /\
  signalled (sp_next_track w) = false /\ interrupted (nap_next w) = false /\
  signalled (sp_previous_track w) = false /\
  interrupted (nap_prev w) = false /\ interrupted (nap_loop w) = false.
Proof.
  unfold undisturbed. rewrite negb_true_iff, !orb_false_iff. tauto.
Qed.

(** Proves that a piece of the script owes at most one error line. *)
Ltac debt :=
  repeat match goal with
  | |- forall _, _ => intro
  | |- owes_at_most_one _ (call _ _) =>
      apply owes_call; [reflexivity | reflexivity | assumption]
  | |- owes_at_most_one _ (sleep _ _) => apply owes_sleep; assumption
  | |- owes_at_most_one _ (print _) => apply owes_print; reflexivity
  | |- owes_at_most_one _ (GPIO_input _ _) => apply owes_input
  | |- owes_at_most_one _ (ret _) => apply owes_ret
  | |- owes_at_most_one _ get_last_tag_id => apply owes_get
  | |- owes_at_most_one _ (set_last_tag_id _) => apply owes_set
  | |- owes_at_most_one _ (bind _ _) => apply owes_bind
  | |- owes_at_most_one _ (try_except _ _ _) => apply owes_try_except
  | |- contains _ (try_except _ _ _) => apply contains_try_except
  | |- settles _ (print _) => apply settles_print; reflexivity
  | |- settles _ (bind (print _) _) => apply settles_print_ret; reflexivity
  | |- owes_at_most_one _ (if ?b then _ else _) => destruct b
  | |- owes_at_most_one _ (match ?x with _ => _ end) => destruct x
  end.

Lemma scan_contains (w : world) :
  undisturbed w = true -> contains w (scan_tag DEVICE_ID w).
Proof.
  intros Hq. apply undisturbed_inv in Hq. decompose [and] Hq. clear Hq.
  unfold scan_tag, play_media, get_tag_data. debt.
Qed.

Lemma returns_bind {A B} (c : M A) (k : A -> M B) :
  returns c -> (forall a, returns (k a)) -> returns (bind c k).
Proof.
  intros Hc Hk m. unfold bind. destruct (Hc m) as [a Ha].
  destruct (c m) as [r m1 t1]. cbn in Ha. subst r.
  destruct (Hk a m1) as [b Hb]. destruct (k a m1) as [r m2 t2].
  cbn in *. eauto.
Qed.

Lemma returns_guarded {A} (w : world) (c : M A) (h : exn -> M A) :
  owes_at_most_one w c -> (forall e, returns (h e)) ->
  returns (try_except c isinstance_Exception h).
Proof.
  intros Hc Hh m. specialize (Hc m). unfold try_except.
  destruct (c m) as [[a|e] m1 t1]; cbn in *; [eauto|].
  destruct Hc as [-> _]. destruct (Hh e m1) as [a Ha].
  destruct (h e m1) as [r m2 t2]. cbn in *. eauto.
Qed.

Lemma returns_emit (e : event) : returns (emit e).
Proof. intros m. cbn. eauto. Qed.

Lemma returns_ret {A} (a : A) : returns (ret a).
Proof. intros m. cbn. eauto. Qed.

Lemma returns_sleep (ms : N) (n : nap) :
  interrupted n = false -> returns (sleep ms n).
Proof. intros H m. unfold sleep. monad. cbn. rewrite H. cbn. eauto. Qed.

Lemma returns_input (w : world) (pin : N) : returns (GPIO_input w pin).
Proof. intros m. cbn. eauto. Qed.

Lemma contains_of_owes_returns (w : world) (c : M unit) :
  owes_at_most_one w c -> returns c -> contains w c.
Proof.
  intros Ho Hr m. specialize (Ho m). destruct (Hr m) as [[] Ha].
  rewrite Ha in Ho. auto.
Qed.

(** Proves that a piece of the script always returns. *)
Ltac back :=
  repeat match goal with
  | |- forall _, _ => intro
  | |- returns (print _) => apply returns_emit
  | |- returns (sleep _ _) => apply returns_sleep; assumption
  | |- returns (GPIO_input _ _) => apply returns_input
  | |- returns (ret _) => apply returns_ret
  | |- returns (bind _ _) => apply returns_bind
  | w : world |- returns (try_except _ isinstance_Exception _) =>
      apply (returns_guarded w); [debt|]
  | |- returns (if ?b then _ else _) => destruct b
  end.

Lemma poll_buttons_contains (w : world) :
  undisturbed w = true -> contains w (poll_buttons w).
Proof.
  intros Hq. apply undisturbed_inv in Hq. decompose [and] Hq. clear Hq.
  unfold poll_buttons, poll_play_pause, poll_next, poll_prev,
    handle_play_pause, handle_next, handle_previous.
  apply contains_of_owes_returns; [debt | back].
Qed.

Lemma tick_contains (w : world) :
  undisturbed w = true -> contains w (tick DEVICE_ID w).
Proof.
  intros Hq. unfold tick.
  apply contains_bind; [now apply scan_contains|].
  apply contains_bind; [now apply poll_buttons_contains|].
  apply undisturbed_inv in Hq. decompose [and] Hq. clear Hq.
  apply contains_of_owes_returns; [debt | back].
Qed.

(** C7.  In a world where no interrupt or exit request arrives, an iteration
    of the loop always returns to the loop, whatever its calls answer: each
    call that failed is caught inside the iteration and turned into exactly
    one printed error line, and nothing is raised out of the iteration. *)
Theorem no_failure_leaves_the_tick (w : world) (m : machine) :
  undisturbed w = true ->
  let r := tick DEVICE_ID w m in
  returned r = Ok tt /\
  tally is_error_line (trace r) = tally (is_failed_call w) (trace r).
Proof. intros Hq. exact (tick_contains w Hq m). Qed.

End OneTick.

End Containment.

(** *** Scans over whole iterations *)

Module Scans.
Import Registry Player PlayerSpec PlayerFacts Containment.
#[local] Open Scope list_scope.

Lemma bind_ok {A B} (c : M A) (k : A -> M B) (m : machine) (a : A) :
  returned (c m) = Ok a ->
  bind c k m
  = {| returned := returned (k a (after (c m)));
       after := after (k a (after (c m)));
       emitted := emitted (c m) ++ emitted (k a (after (c m))) |}.
Proof.
  intros H. unfold bind. destruct (c m) as [r m1 t1]. cbn in *. subst r.
  now destruct (k a m1).
Qed.

Lemma bind_raise {A B} (c : M A) (k : A -> M B) (m : machine) (e : exn) :
  returned (c m) = Raise e ->
  bind c k m
  = {| returned := Raise e; after := after (c m); emitted := emitted (c m) |}.
Proof.
  intros H. unfold bind. destruct (c m) as [r m1 t1]. cbn in *. now subst r.
Qed.

Lemma trace_bind_ok {A B} (c : M A) (k : A -> M B) (m : machine) (a : A) :
  returned (c m) = Ok a ->
  trace (bind c k m) = trace (c m) ++ trace (k a (after (c m))).
Proof.
  intros H. rewrite (bind_ok c k m a H). unfold trace. cbn. apply map_app.
Qed.

Lemma bind_keeps {A B} (c : M A) (k : A -> M B) (m : machine) :
  last_tag_id (after (c m)) = last_tag_id m ->
  (forall a, keeps_tag (k a)) ->
  last_tag_id (after (bind c k m)) = last_tag_id m.
Proof.
  intros Hc Hk. destruct (returned (c m)) as [a|e] eqn:E.
  - rewrite (bind_ok c k m a E). cbn. now rewrite Hk.
  - rewrite (bind_raise c k m e E). exact Hc.
Qed.

Lemma bind_tally_none {A B} (p : event -> bool) (c : M A) (k : A -> M B)
    (m : machine) :
  tally p (trace (c m)) = 0 ->
  (forall a, emits (fun e => negb (p e)) (k a)) ->
  tally p (trace (bind c k m)) = 0.
Proof.
  intros Hc Hk. destruct (returned (c m)) as [a|e] eqn:E.
  - rewrite (bind_ok c k m a E). unfold trace in *. cbn [emitted].
    rewrite map_app, tally_app, Hc. apply (emits_none p (k a) _ (Hk a)).
  - rewrite (bind_raise c k m e E). exact Hc.
Qed.

Lemma bind_prefix {A B} (c : M A) (k : A -> M B) (m : machine) :
  exists rest, emitted (bind c k m) = emitted (c m) ++ rest.
Proof.
  destruct (returned (c m)) as [a|e] eqn:E.
  - rewrite (bind_ok c k m a E). cbn. eauto.
  - rewrite (bind_raise c k m e E). cbn. exists []. now rewrite app_nil_r.
Qed.

Lemma trace_bind {A B} (c : M A) (k : A -> M B) (m : machine) :
  trace (bind c k m)
  = trace (c m) ++ match returned (c m) with
                   | Ok a => trace (k a (after (c m)))
                   | Raise _ => []
                   end.
Proof.
  destruct (returned (c m)) as [a|e] eqn:E.
  - now apply trace_bind_ok.
  - rewrite (bind_raise c k m e E). unfold trace. cbn. now rewrite app_nil_r.
Qed.

Lemma bind_ok_inv {A B} (c : M A) (k : A -> M B) (m : machine) (b : B) :
  returned (bind c k m) = Ok b ->
  exists a, returned (c m) = Ok a /\ returned (k a (after (c m))) = Ok b.
Proof.
  destruct (returned (c m)) as [a|e] eqn:E.
  - rewrite (bind_ok c k m a E). cbn. eauto.
  - rewrite (bind_raise c k m e E). cbn. discriminate.
Qed.

Lemma filter_none (p : event -> bool) {A} (c : M A) (m : machine) :
  emits (fun e => negb (p e)) c -> filter p (trace (c m)) = [].
Proof.
  intros H. apply length_zero_iff_nil. exact (emits_none p c m H).
Qed.

Section Scans.

Variable DEVICE_ID : option string.

Lemma rest_of_tick_keeps_tag (w : world) :
  keeps_tag (poll_buttons w ;; sleep 100 (nap_loop w)).
Proof. discipline. Qed.

Lemma rest_of_tick_no_tag_effect (w : world) :
  emits (fun e => negb (tag_effect e)) (poll_buttons w ;; sleep 100 (nap_loop w)).
Proof. discipline; reflexivity. Qed.

Lemma rest_of_tick_no_miss_line (w : world) :
  emits (fun e => negb (is_miss_line e)) (poll_buttons w ;; sleep 100 (nap_loop w)).
Proof. discipline; reflexivity. Qed.

Lemma rest_of_tick_no_duplicate_line (w : world) :
  emits (fun e => negb (is_duplicate_line e))
        (poll_buttons w ;; sleep 100 (nap_loop w)).
Proof. discipline; reflexivity. Qed.

Lemma rest_of_tick_no_lookup (w : world) (tag : string) :
  emits (fun e => negb (is_lookup_of tag e))
        (poll_buttons w ;; sleep 100 (nap_loop w)).
Proof. discipline; reflexivity. Qed.

Lemma poll_play_pause_head (w : world) (m : machine) :
  exists rest,
    emitted (poll_play_pause w m)
    = (now m, GpioInput BTN_PLAY_PAUSE (gpio w BTN_PLAY_PAUSE)) :: rest.
Proof.
  unfold poll_play_pause.
  rewrite (bind_ok _ _ m (gpio w BTN_PLAY_PAUSE)) by reflexivity.
  cbn. eauto.
Qed.

(** After a scan that returned, the iteration goes on to poll the first
    button. *)
Lemma tick_polls_after_scan (w : world) (m : machine) :
  returned (scan_tag DEVICE_ID w m) = Ok tt ->
  exists rest,
    trace (tick DEVICE_ID w m)
    = trace (scan_tag DEVICE_ID w m)
      ++ GpioInput BTN_PLAY_PAUSE (gpio w BTN_PLAY_PAUSE) :: rest.
Proof.
  intros H. unfold tick. rewrite (bind_ok _ _ m tt H). unfold trace.
  cbn [emitted]. rewrite map_app.
  destruct (bind_prefix (poll_buttons w) (fun _ => sleep 100 (nap_loop w))
              (after (scan_tag DEVICE_ID w m))) as [r1 ->].
  unfold poll_buttons.
  destruct (bind_prefix (poll_play_pause w) (fun _ => poll_next w ;; poll_prev w)
              (after (scan_tag DEVICE_ID w m))) as [r2 ->].
  destruct (poll_play_pause_head w (after (scan_tag DEVICE_ID w m))) as [r3 ->].
  cbn. eauto.
Qed.

Lemma scan_of_absent_tag (w : world) (m : machine) (tag : string) :
  misses tag w ->
  let r := scan_tag DEVICE_ID w m in
  returned r = Ok tt /\ last_tag_id (after r) = last_tag_id m /\
  tally is_backend_call (trace r) = 0.
Proof.
  intros (Hread & rs & Hdb & Hrow). cbv zeta.
  destruct (option_string_eqb (last_tag_id m) (Some tag)) eqn:E.
  - apply option_string_eqb_eq in E.
    destruct (scan_duplicate DEVICE_ID w m tag Hread E) as (Hr & Hl & Ht).
    rewrite Hr, Hl, Ht, E. auto.
  - assert (Hn : last_tag_id m <> Some tag).
    { intros H. rewrite H, option_string_eqb_refl in E. discriminate. }
    destruct (scan_miss DEVICE_ID w m tag rs Hread Hn Hdb Hrow) as (Hr & Hl & Ht).
    rewrite Hr, Hl, Ht. auto.
Qed.

(** C4 (amended).  When the scanned tag has no row in the registry, the
    handling of the scan makes no backend call and raises nothing, and the
    same iteration goes on to poll the buttons and, unless an interrupt
    arrives, returns to the loop.  The miss is looked up and printed when
    the tag is not the one held in [last_tag_id].  When it is (the tag was
    played and its row has gone since), the scan is dropped as a duplicate:
    nothing is looked up and no miss is printed. *)
Theorem registry_miss_is_not_fatal (w : world) (m : machine) (tag : string) :
  misses tag w ->
  let r := scan_tag DEVICE_ID w m in
  returned r = Ok tt /\
  tally is_backend_call (trace r) = 0 /\
  (last_tag_id m <> Some tag ->
     trace r = [ReaderRead; Print (TagScanned tag); Select tag; Print TagNotFound]) /\
  (last_tag_id m = Some tag ->
     trace r = [ReaderRead; Print DuplicateScan]) /\
  (exists rest,
     trace (tick DEVICE_ID w m)
     = trace r ++ GpioInput BTN_PLAY_PAUSE (gpio w BTN_PLAY_PAUSE) :: rest) /\
  (undisturbed w = true -> returned (tick DEVICE_ID w m) = Ok tt).
Proof.
  intros Hmiss. cbv zeta.
  destruct (scan_of_absent_tag w m tag Hmiss) as (Hr & _ & Hb).
  destruct Hmiss as (Hread & rs & Hdb & Hrow).
  repeat match goal with |- _ /\ _ => split end; try assumption.
  - intros Hn. now apply (scan_miss DEVICE_ID w m tag rs).
  - intros Hl. now apply (scan_duplicate DEVICE_ID w m tag).
  - now apply tick_polls_after_scan.
  - intros Hq. apply (tick_contains DEVICE_ID w Hq m).
Qed.

Lemma tick_of_absent_tag_keeps (w : world) (m : machine) (tag : string) :
  misses tag w ->
  last_tag_id (after (tick DEVICE_ID w m)) = last_tag_id m.
Proof.
  intros Hmiss. unfold tick. apply bind_keeps.
  - apply (scan_of_absent_tag w m tag Hmiss).
  - intros _. apply rest_of_tick_keeps_tag.
Qed.

Lemma tick_of_absent_tag_counts (w : world) (m : machine) (tag : string) :
  misses tag w ->
  last_tag_id m <> Some tag ->
  tally (is_lookup_of tag) (trace (tick DEVICE_ID w m)) = 1 /\
  tally is_miss_line (trace (tick DEVICE_ID w m)) = 1.
Proof.
  intros (Hread & rs & Hdb & Hrow) Hn.
  destruct (scan_miss DEVICE_ID w m tag rs Hread Hn Hdb Hrow) as (Hr & _ & Ht).
  unfold tick. rewrite (trace_bind_ok _ _ m tt Hr), !tally_app, Ht.
  rewrite (emits_none _ _ _ (rest_of_tick_no_lookup w tag)).
  rewrite (emits_none _ _ _ (rest_of_tick_no_miss_line w)).
  unfold tally. cbn. rewrite String.eqb_refl. auto.
Qed.

Lemma tick_of_recorded_tag (w : world) (m : machine) (tag : string) :
  last_tag_id m = Some tag ->
  ans (reader_read w) = Ok tag ->
  let r := tick DEVICE_ID w m in
  tally tag_effect (trace r) = 0 /\ last_tag_id (after r) = Some tag /\
  (returned r = Ok tt -> tally is_duplicate_line (trace r) = 1).
Proof.
  intros Hlast Hread. cbv zeta.
  destruct (scan_duplicate DEVICE_ID w m tag Hread Hlast) as (Hr & Hl & Ht).
  repeat split.
  - unfold tick. apply bind_tally_none; [now rewrite Ht|].
    intros _. apply rest_of_tick_no_tag_effect.
  - rewrite <- Hlast. unfold tick. apply bind_keeps; [congruence|].
    intros _. apply rest_of_tick_keeps_tag.
  - intros _. unfold tick. rewrite (trace_bind_ok _ _ m tt Hr), tally_app, Ht.
    now rewrite (emits_none _ _ _ (rest_of_tick_no_duplicate_line w)).
Qed.

Lemma tick_of_recorded_absent_tag (w : world) (m : machine) (tag : string) :
  last_tag_id m = Some tag ->
  ans (reader_read w) = Ok tag ->
  tally (is_lookup_of tag) (trace (tick DEVICE_ID w m)) = 0 /\
  tally is_miss_line (trace (tick DEVICE_ID w m)) = 0.
Proof.
  intros Hlast Hread.
  destruct (scan_duplicate DEVICE_ID w m tag Hread Hlast) as (_ & _ & Ht).
  split; unfold tick; (apply bind_tally_none; [now rewrite Ht|]); intros _.
  - apply rest_of_tick_no_lookup.
  - apply rest_of_tick_no_miss_line.
Qed.

(** C10 (amended).  Iterations that scan a tag with no row in the registry
    leave [last_tag_id] as it was, however many of them run.  So a tag that
    was not in the slot to begin with never becomes a duplicate: every one
    of the iterations looks it up and prints the miss again.  But a tag
    that is in the slot (it was played, and its row has gone since) stays
    there: none of the iterations looks it up or prints a miss, each scan
    is dropped as a duplicate. *)
Theorem registry_miss_leaves_last_tag (ws : list world) (m : machine) (tag : string) :
  Forall (misses tag) ws ->
  let r := loop DEVICE_ID ws m in
  last_tag_id (after r) = last_tag_id m /\
  (last_tag_id m <> Some tag ->
   Forall (fun w => undisturbed w = true) ws ->
   tally (is_lookup_of tag) (trace r) = length ws /\
   tally is_miss_line (trace r) = length ws) /\
  (last_tag_id m = Some tag ->
   tally (is_lookup_of tag) (trace r) = 0 /\
   tally is_miss_line (trace r) = 0 /\
   (returned r = Ok tt -> tally is_duplicate_line (trace r) = length ws)).
Proof.
  intros Hws. cbv zeta. revert m.
  induction Hws as [|w ws Hw _ IH]; intros m; [cbn; auto|].
  cbn [loop length].
  pose proof (tick_of_absent_tag_keeps w m tag Hw) as Hk.
  split; [|split].
  - destruct (returned (tick DEVICE_ID w m)) as [[]|e] eqn:E.
    + rewrite (bind_ok _ _ m tt E). cbn.
      destruct (IH (after (tick DEVICE_ID w m))) as [-> _]. exact Hk.
    + rewrite (bind_raise _ _ m e E). exact Hk.
  - intros Hn Hq. inversion Hq as [|? ? Hqw Hqws]; subst.
    pose proof (tick_contains DEVICE_ID w Hqw m) as [E _].
    rewrite (trace_bind_ok _ _ m tt E).
    destruct (tick_of_absent_tag_counts w m tag Hw Hn) as [H1 H2].
    destruct (IH (after (tick DEVICE_ID w m))) as (_ & IH' & _).
    rewrite Hk in IH'. destruct (IH' Hn Hqws) as [H3 H4].
    rewrite !tally_app, H1, H2, H3, H4. auto.
  - intros Hl. destruct Hw as [Hread _].
    destruct (tick_of_recorded_absent_tag w m tag Hl Hread) as [H1 H2].
    destruct (tick_of_recorded_tag w m tag Hl Hread) as (_ & _ & Hd).
    destruct (IH (after (tick DEVICE_ID w m))) as (_ & _ & IH').
    rewrite Hk in IH'. destruct (IH' Hl) as (H3 & H4 & H5).
    destruct (returned (tick DEVICE_ID w m)) as [[]|e] eqn:E.
    + rewrite (trace_bind_ok _ _ m tt E), (bind_ok _ _ m tt E), !tally_app.
      cbn [returned]. rewrite H1, H2, H3, H4. repeat split.
      intros Hr. now rewrite (Hd eq_refl), (H5 Hr).
    + rewrite (bind_raise _ _ m e E). unfold trace in *.
      cbn [returned emitted]. repeat split; auto. discriminate.
Qed.

(** C2 (amended).  While [last_tag_id] holds a tag, iterations that scan
    that same tag cause no registry lookup and no transfer or start call,
    whatever the clock says and however many they are; each one that runs to
    its end prints the duplicate notice once, and the slot still holds the
    tag afterwards.  A scan of any other identifier is printed and looked
    up.  A scan puts its tag into the slot when its lookup finds a row and
    [play_media] returns. *)
Theorem recorded_tag_is_suppressed (ws : list world) (m : machine) (tag : string) :
  last_tag_id m = Some tag ->
  Forall (fun w => ans (reader_read w) = Ok tag) ws ->
  let r := loop DEVICE_ID ws m in
  tally tag_effect (trace r) = 0 /\
  last_tag_id (after r) = Some tag /\
  (returned r = Ok tt -> tally is_duplicate_line (trace r) = length ws) /\
  (forall w' tag',
     ans (reader_read w') = Ok tag' -> tag' <> tag ->
     exists rest,
       trace (scan_tag DEVICE_ID w' (after r))
       = ReaderRead :: Print (TagScanned tag') :: Select tag' :: rest) /\
  (forall w0 m0 rs uri mt,
     ans (reader_read w0) = Ok tag ->
     last_tag_id m0 <> Some tag ->
     ans (db w0) = Ok rs ->
     fetchone (select_by_tag rs tag) = Some (uri, mt) ->
     returned (play_media DEVICE_ID w0 uri mt
                 {| last_tag_id := last_tag_id m0;
                    now := now m0 + took (reader_read w0) + took (db w0) |})
     = Ok tt ->
     last_tag_id (after (scan_tag DEVICE_ID w0 m0)) = Some tag).
Proof.
  intros Hlast Hws. cbv zeta.
  assert (Hrun : tally tag_effect (trace (loop DEVICE_ID ws m)) = 0 /\
                 last_tag_id (after (loop DEVICE_ID ws m)) = Some tag /\
                 (returned (loop DEVICE_ID ws m) = Ok tt ->
                  tally is_duplicate_line (trace (loop DEVICE_ID ws m))
                  = length ws)).
  { revert m Hlast. induction Hws as [|w ws Hw _ IH]; intros m Hlast.
    - cbn. auto.
    - cbn [loop length].
      destruct (tick_of_recorded_tag w m tag Hlast Hw) as (Ht & Hl & Hd).
      destruct (returned (tick DEVICE_ID w m)) as [[]|e] eqn:E.
      + destruct (IH _ Hl) as (IHt & IHl & IHd).
        rewrite (trace_bind_ok _ _ m tt E), (bind_ok _ _ m tt E), !tally_app.
        cbn [returned after]. rewrite Ht, IHt. repeat split; auto.
        intros Hr. now rewrite Hd, IHd.
      + rewrite (bind_raise _ _ m e E). unfold trace in *.
        cbn [returned after emitted]. repeat split; auto. discriminate. }
  destruct Hrun as (Ht & Hl & Hd). repeat split; auto.
  - intros w' tag' Hread' Hne. apply scan_new_looks_up; congruence.
  - intros w0 m0 rs uri mt Hread Hn Hdb Hrow Hplay.
    destruct (scan_hit DEVICE_ID w0 m0 tag uri mt rs Hread Hn Hdb Hrow)
      as (_ & H & _).
    now rewrite Hplay in H.
Qed.

End Scans.

(** *** The Play/Pause button *)

(** Case analysis on the answers the handler looks at. *)
Ltac toggle w :=
  destruct (ans (sp_current_playback w)) as [[[]|]|?]; cbn;
  try (destruct (ans (sp_pause_playback w)) as [[]|?]; cbn);
  try (destruct (ans (sp_resume_playback w)) as [[]|?]; cbn);
  repeat match goal with
         | |- context [isinstance_Exception ?e] =>
             destruct (isinstance_Exception e); cbn
         end.

(** C6.  The Play/Pause handler first asks the backend for the current
    playback; when that reports playing it issues a pause, otherwise (not
    playing, or no playback at all) a resume, and no other backend call.  A
    failure of the query or of the command is printed and the handler
    returns.  The handler never touches [last_tag_id], and what it does
    depends on the answers of the backend alone, not on anything kept from
    earlier presses. *)
Theorem play_pause_follows_live_state (w : world) (m : machine) :
  let r := handle_play_pause w m in
  let pressed := Print (ButtonPressed PlayPause) in
  let query := Spotify current_playback in
  let pause := Spotify pause_playback in
  let resume := Spotify (start_playback None None None) in
  (exists rest, trace r = pressed :: query :: rest) /\
  (ans (sp_current_playback w) = Ok (Some true) ->
     exists rest, trace r = [pressed; query; pause] ++ rest /\
                  tally is_backend_call rest = 0) /\
  (ans (sp_current_playback w) = Ok (Some false) \/
   ans (sp_current_playback w) = Ok None ->
     exists rest, trace r = [pressed; query; resume] ++ rest /\
                  tally is_backend_call rest = 0) /\
  (forall e, isinstance_Exception e = true ->
     ans (sp_current_playback w) = Raise e ->
     trace r = [pressed; query; Print (ToggleError e)] /\ returned r = Ok tt) /\
  (forall e, isinstance_Exception e = true ->
     ans (sp_current_playback w) = Ok (Some true) ->
     ans (sp_pause_playback w) = Raise e ->
     trace r = [pressed; query; pause; Print (ToggleError e)] /\
     returned r = Ok tt) /\
  (forall e, isinstance_Exception e = true ->
     ans (sp_current_playback w) = Ok (Some false) \/
     ans (sp_current_playback w) = Ok None ->
     ans (sp_resume_playback w) = Raise e ->
     trace r = [pressed; query; resume; Print (ToggleError e)] /\
     returned r = Ok tt) /\
  last_tag_id (after r) = last_tag_id m /\
  (forall m', trace (handle_play_pause w m') = trace r).
Proof.
  cbv zeta. unfold handle_play_pause. monad. cbn.
  repeat split.
  - toggle w; eexists; reflexivity.
  - intros ->. cbn.
    destruct (ans (sp_pause_playback w)) as [[]|e]; cbn;
      [|destruct (isinstance_Exception e); cbn]; eexists; split; reflexivity.
  - intros [-> | ->]; cbn;
      (destruct (ans (sp_resume_playback w)) as [[]|e]; cbn;
       [|destruct (isinstance_Exception e); cbn]; eexists; split; reflexivity).
  - rewrite H0. cbn. rewrite H. reflexivity.
  - rewrite H0. cbn. rewrite H. reflexivity.
  - rewrite H0. cbn. rewrite H1. cbn. rewrite H. reflexivity.
  - rewrite H0. cbn. rewrite H1. cbn. rewrite H. reflexivity.
  - destruct H0 as [-> | ->]; cbn; rewrite H1; cbn; rewrite H; reflexivity.
  - destruct H0 as [-> | ->]; cbn; rewrite H1; cbn; rewrite H; reflexivity.
  - toggle w; reflexivity.
  - intros m'.
    toggle w; reflexivity.
Qed.

End Scans.

(** *** The debounce window *)

Module Debounce.
Import Registry Player PlayerSpec PlayerFacts Scans.
#[local] Open Scope list_scope.
#[local] Open Scope N_scope.

Lemma button_eqb_refl (b : button) : button_eqb b b = true.
Proof. now destruct b. Qed.

Lemma pin_of_inj (a b : button) : pin_of a = pin_of b -> a = b.
Proof. destruct a, b; cbn; intros H; try reflexivity; discriminate. Qed.

Lemma spaced_app (b : button) (tr1 tr2 : list (N * event)) (last : option N) :
  spaced b last (tr1 ++ tr2)
  = spaced b last tr1 && spaced b (last_press b last tr1) tr2.
Proof.
  revert last. induction tr1 as [|[t e] tr1 IH]; intros last; cbn;
    [reflexivity|].
  now rewrite IH, andb_assoc.
Qed.

Lemma last_press_app (b : button) (tr1 tr2 : list (N * event)) (last : option N) :
  last_press b last (tr1 ++ tr2) = last_press b (last_press b last tr1) tr2.
Proof.
  revert last. induction tr1 as [|[t e] tr1 IH]; intros last; cbn; auto.
Qed.

(** Events that do not concern [b] change nothing for [b]. *)
Lemma unconcerned (b : button) (tr : list (N * event)) (last : option N) :
  forallb (fun te => negb (about b (snd te))) tr = true ->
  spaced b last tr = true /\ last_press b last tr = last.
Proof.
  induction tr as [|[t e] tr IH]; cbn; intros H; [auto|].
  apply andb_prop in H. destruct H as [He Htr]. unfold about in He.
  apply negb_true_iff, orb_false_iff in He. destruct He as [-> ->].
  now apply IH.
Qed.

(** The check implies the property over positions of the trace. *)
Lemma spaced_sound (b : button) (tr : list (N * event)) :
  forall last, spaced b last tr = true ->
  forall j t2 lvl,
    nth_error tr j = Some (t2, GpioInput (pin_of b) lvl) ->
    (forall t0, last = Some t0 -> t0 + QUIET <= t2) /\
    (forall i t1, (i < j)%nat ->
       nth_error tr i = Some (t1, Print (ButtonPressed b)) ->
       t1 + QUIET <= t2).
Proof.
  induction tr as [|[t e] tr IH]; intros last Hs j t2 lvl Hj.
  - destruct j; discriminate.
  - cbn [spaced] in Hs. apply andb_prop in Hs. destruct Hs as [Hhead Htail].
    destruct j as [|j]; cbn [nth_error] in Hj.
    + injection Hj as -> ->. cbn in Hhead. rewrite N.eqb_refl in Hhead.
      split.
      * intros t0 ->. now apply N.leb_le.
      * intros i t1 Hi. inversion Hi.
    + destruct (IH _ Htail j t2 lvl Hj) as [Hlast Hprev]. split.
      * intros t0 ->. destruct (is_press b e); cbn in Hlast.
        -- specialize (Hlast _ eq_refl).
           unfold QUIET, DEBOUNCE, LOOP_DELAY in *. lia.
        -- now apply Hlast.
      * intros i t1 Hi Hnth. destruct i as [|i]; cbn [nth_error] in Hnth.
        -- injection Hnth as -> ->. cbn [is_press] in Hlast.
           rewrite button_eqb_refl in Hlast. unfold bump in Hlast.
           specialize (Hlast _ eq_refl).
           unfold QUIET, DEBOUNCE, LOOP_DELAY in *. destruct last; lia.
        -- apply (Hprev i); [apply Nat.succ_lt_mono|]; assumption.
Qed.

Section Distance.

Context {A B : Type}.
Variable b : button.

Lemma distance_bind (g1 g2 g3 : N) (c : M A) (k : A -> M B) :
  keeps_distance b g1 g2 c -> (forall a, keeps_distance b g2 g3 (k a)) ->
  keeps_distance b g1 g3 (bind c k).
Proof.
  intros Hc Hk m last Hpre. destruct (Hc m last Hpre) as [Hs Hpost].
  destruct (returned (c m)) as [a|e] eqn:E.
  - rewrite (bind_ok c k m a E). cbn [returned after emitted].
    destruct (Hk a (after (c m)) (last_press b last (emitted (c m))))
      as [Hs' Hpost']; [now apply (Hpost a)|].
    rewrite spaced_app, last_press_app, Hs. auto.
  - rewrite (bind_raise c k m e E). cbn [returned after emitted].
    split; [assumption | discriminate].
Qed.

Lemma distance_weaken (g1 g2 g1' g2' : N) (c : M A) :
  keeps_distance b g1 g2 c -> g1 <= g1' -> g2' <= g2 ->
  keeps_distance b g1' g2' c.
Proof.
  intros Hc H1 H2 m last Hpre.
  destruct (Hc m last) as [Hs Hpost].
  - intros t0 Ht0. specialize (Hpre t0 Ht0). lia.
  - split; [assumption|]. intros a Ha t0 Ht0.
    specialize (Hpost a Ha t0 Ht0). lia.
Qed.

Lemma distance_unconcerned (g : N) (c : M A) :
  emits (fun e => negb (about b e)) c -> timely c -> keeps_distance b g g c.
Proof.
  intros He Ht m last Hpre.
  destruct (unconcerned b (emitted (c m)) last (He m)) as [Hs Hl].
  split; [assumption|]. intros a _ t0 Ht0. rewrite Hl in Ht0.
  destruct (Ht m) as [Hn _]. specialize (Hpre t0 Ht0). lia.
Qed.

End Distance.

Lemma distance_sleep (b : button) (g ms : N) (n : nap) :
  keeps_distance b g (g + ms) (sleep ms n).
Proof.
  intros m last Hpre. unfold sleep. monad.
  destruct (interrupted n); cbn; (split; [reflexivity|]);
    intros a Ha t0 Ht0; [discriminate|].
  specialize (Hpre t0 Ht0). lia.
Qed.

(** A poll of [b] is in order when the latest press is [QUIET] old. *)
Lemma distance_input (b : button) (w : world) :
  keeps_distance b QUIET QUIET (GPIO_input w (pin_of b)).
Proof.
  intros m last Hpre. unfold GPIO_input. monad. cbn.
  rewrite N.eqb_refl, andb_true_r. split.
  - destruct last as [t0|]; [|reflexivity]. apply N.leb_le.
    specialize (Hpre t0 eq_refl). unfold QUIET, DEBOUNCE, LOOP_DELAY in *; lia.
  - intros a _ t0 Ht0. now apply Hpre.
Qed.

(** Entering the handler of [b] makes now the latest press. *)
Lemma distance_press (b : button) (g : N) :
  keeps_distance b g 0 (print (ButtonPressed b)).
Proof.
  intros m last Hpre. unfold print, emit. cbn.
  rewrite button_eqb_refl. split; [reflexivity|].
  intros a _ t0 Ht0. unfold bump in Ht0. injection Ht0 as <-.
  destruct last as [t1|]; [|lia]. specialize (Hpre t1 eq_refl). lia.
Qed.

(** One "if pressed: handle, then sleep 0.3" block of the loop body. *)
Lemma distance_block (b : button) (w : world) (body : M unit) (n : nap) :
  emits (fun e => negb (about b e)) body -> timely body ->
  keeps_distance b QUIET DEBOUNCE
    (lvl <- GPIO_input w (pin_of b) ;;
     if level_eqb lvl LOW then (print (ButtonPressed b) ;; body) ;; sleep 300 n
     else ret tt).
Proof.
  intros He Ht.
  apply distance_bind with (g2 := QUIET); [apply distance_input|].
  intros lvl. destruct (level_eqb lvl LOW).
  - apply distance_bind with (g2 := 0).
    + apply distance_bind with (g2 := 0); [apply distance_press|].
      intros _. now apply distance_unconcerned.
    + intros _. apply (distance_sleep b 0 300).
  - apply distance_weaken with (g1 := DEBOUNCE) (g2 := DEBOUNCE);
      [|unfold QUIET, DEBOUNCE, LOOP_DELAY; lia | lia].
    apply distance_unconcerned; [apply emits_ret | apply timely_ret].
Qed.

Section Run.

Variable DEVICE_ID : option string.

(** Proves that a piece of the script is no concern of a given button. *)
Ltac aside :=
  apply distance_unconcerned; [discipline; reflexivity | discipline].

Lemma tick_keeps_distance (b : button) (w : world) :
  keeps_distance b QUIET QUIET (tick DEVICE_ID w).
Proof.
  unfold tick, poll_buttons.
  apply distance_bind with (g2 := QUIET); [destruct b; aside|].
  intros _.
  apply distance_weaken with (g1 := QUIET) (g2 := DEBOUNCE + 100);
    [|lia | unfold QUIET, LOOP_DELAY; lia].
  apply distance_bind with (g2 := DEBOUNCE);
    [|intros _; apply distance_sleep].
  destruct b.
  - apply distance_bind with (g2 := DEBOUNCE).
    + unfold poll_play_pause, handle_play_pause.
      apply (distance_block PlayPause); discipline; reflexivity.
    + intros _. apply distance_bind with (g2 := DEBOUNCE); [|intros _]; aside.
  - apply distance_bind with (g2 := QUIET); [aside|]. intros _.
    apply distance_bind with (g2 := DEBOUNCE); [|intros _; aside].
    unfold poll_next, handle_next.
    apply (distance_block NextTrack); discipline; reflexivity.
  - apply distance_bind with (g2 := QUIET); [aside|]. intros _.
    apply distance_bind with (g2 := QUIET); [aside|]. intros _.
    unfold poll_prev, handle_previous.
    apply (distance_block PreviousTrack); discipline; reflexivity.
Qed.

Lemma loop_keeps_distance (b : button) (ws : list world) :
  keeps_distance b QUIET QUIET (loop DEVICE_ID ws).
Proof.
  induction ws as [|w ws IH]; cbn [loop].
  - apply distance_unconcerned; [apply emits_ret | apply timely_ret].
  - apply distance_bind with (g2 := QUIET);
      [apply tick_keeps_distance | intros _; exact IH].
Qed.

Lemma loop_left_alone (b : button) (ws : list world) (m : machine) :
  left_alone b (emitted (loop DEVICE_ID ws m)).
Proof.
  intros i j t1 t2 lvl Hij Hi Hj.
  destruct (loop_keeps_distance b ws m None) as [Hs _]; [discriminate|].
  destruct (spaced_sound b _ None Hs j t2 lvl Hj) as [_ H].
  now apply (H i).
Qed.

Lemma loop_debounced (b : button) (ws : list world) (m : machine) :
  debounced b (emitted (loop DEVICE_ID ws m)).
Proof.
  intros i j t1 t2 lvl Hij Hi Hj.
  pose proof (loop_left_alone b ws m i j t1 t2 lvl Hij Hi Hj) as H.
  unfold QUIET, DEBOUNCE, LOOP_DELAY in *. lia.
Qed.

(** **** Every iteration polls, and honours what it reads *)

Lemma poll_counts (b b' : button) (w : world) (body : M unit) (n : nap)
    (m : machine) :
  emits (fun e => negb (about b e)) body ->
  tally (is_poll b)
    (trace ((lvl <- GPIO_input w (pin_of b') ;;
             if level_eqb lvl LOW
             then (print (ButtonPressed b') ;; body) ;; sleep 300 n
             else ret tt) m))
  = (if button_eqb b b' then 1 else 0)%nat /\
  tally (is_press b)
    (trace ((lvl <- GPIO_input w (pin_of b') ;;
             if level_eqb lvl LOW
             then (print (ButtonPressed b') ;; body) ;; sleep 300 n
             else ret tt) m))
  = (if button_eqb b b' && held w b' then 1 else 0)%nat.
Proof.
  intros He.
  assert (Hpoll : forall m0, tally (is_poll b) (trace (body m0)) = 0%nat).
  { intros m0. apply emits_none. intros m'. specialize (He m').
    rewrite forallb_forall in *. intros te Hin. specialize (He te Hin).
    unfold about in He. apply negb_true_iff, orb_false_iff in He.
    apply negb_true_iff. tauto. }
  assert (Hpress : forall m0, tally (is_press b) (trace (body m0)) = 0%nat).
  { intros m0. apply emits_none. intros m'. specialize (He m').
    rewrite forallb_forall in *. intros te Hin. specialize (He te Hin).
    unfold about in He. apply negb_true_iff, orb_false_iff in He.
    apply negb_true_iff. tauto. }
  assert (Hpin : (pin_of b' =? pin_of b) = button_eqb b b')
    by (destruct b, b'; reflexivity).
  unfold GPIO_input.
  rewrite (trace_bind_ok _ _ m (gpio w (pin_of b'))) by reflexivity.
  rewrite !tally_app. unfold held.
  cbn [bind emit ret trace emitted map snd after returned app].
  destruct (level_eqb (gpio w (pin_of b')) LOW).
  - rewrite trace_bind, (trace_bind_ok (print (ButtonPressed b')) _ m tt)
      by reflexivity.
    rewrite !tally_app, Hpoll, Hpress.
    assert (Hsleep : forall (p : event -> bool) (r : result unit) (m' : machine),
              p (Sleep 300) = false ->
              tally p match r with
                      | Ok _ => trace (sleep 300 n m')
                      | Raise _ => []
                      end = 0%nat).
    { intros p [[]|e] m' Hp; [|reflexivity]. unfold sleep. monad.
      unfold tally. destruct (interrupted n); cbn; now rewrite Hp. }
    rewrite !Hsleep by reflexivity.
    unfold tally. cbn. rewrite Hpin, andb_true_r.
    destruct (button_eqb b b'); auto.
  - unfold tally. cbn. rewrite Hpin, andb_false_r.
    destruct (button_eqb b b'); auto.
Qed.

Lemma poll_play_pause_counts (b : button) (w : world) (m : machine) :
  tally (is_poll b) (trace (poll_play_pause w m))
  = (if button_eqb b PlayPause then 1 else 0)%nat /\
  tally (is_press b) (trace (poll_play_pause w m))
  = (if button_eqb b PlayPause && held w PlayPause then 1 else 0)%nat.
Proof.
  unfold poll_play_pause, handle_play_pause.
  apply (poll_counts b PlayPause). discipline; reflexivity.
Qed.

Lemma poll_next_counts (b : button) (w : world) (m : machine) :
  tally (is_poll b) (trace (poll_next w m))
  = (if button_eqb b NextTrack then 1 else 0)%nat /\
  tally (is_press b) (trace (poll_next w m))
  = (if button_eqb b NextTrack && held w NextTrack then 1 else 0)%nat.
Proof.
  unfold poll_next, handle_next.
  apply (poll_counts b NextTrack). discipline; reflexivity.
Qed.

Lemma poll_prev_counts (b : button) (w : world) (m : machine) :
  tally (is_poll b) (trace (poll_prev w m))
  = (if button_eqb b PreviousTrack then 1 else 0)%nat /\
  tally (is_press b) (trace (poll_prev w m))
  = (if button_eqb b PreviousTrack && held w PreviousTrack then 1 else 0)%nat.
Proof.
  unfold poll_prev, handle_previous.
  apply (poll_counts b PreviousTrack). discipline; reflexivity.
Qed.

Lemma tick_counts (b : button) (w : world) (m : machine) :
  returned (tick DEVICE_ID w m) = Ok tt ->
  tally (is_poll b) (trace (tick DEVICE_ID w m)) = 1%nat /\
  tally (is_press b) (trace (tick DEVICE_ID w m))
  = (if held w b then 1 else 0)%nat.
Proof.
  intros Hr. unfold tick in *.
  apply bind_ok_inv in Hr. destruct Hr as ([] & Hscan & Hr).
  apply bind_ok_inv in Hr. destruct Hr as ([] & Hpolls & Hsleep).
  rewrite (trace_bind_ok _ _ m tt Hscan).
  rewrite (trace_bind_ok _ _ _ tt Hpolls).
  unfold poll_buttons in *.
  apply bind_ok_inv in Hpolls. destruct Hpolls as ([] & Hpp & Hpolls).
  apply bind_ok_inv in Hpolls. destruct Hpolls as ([] & Hnext & Hprev).
  rewrite (trace_bind_ok _ _ _ tt Hpp), (trace_bind_ok _ _ _ tt Hnext).
  rewrite !tally_app.
  assert (Hquiet : forall c : M unit, forall m',
            emits (fun e => negb (about b e)) c ->
            tally (is_poll b) (trace (c m')) = 0%nat /\
            tally (is_press b) (trace (c m')) = 0%nat).
  { intros c m' He. split; apply emits_none; intros m0; specialize (He m0);
      rewrite forallb_forall in *; intros te Hin; specialize (He te Hin);
      unfold about in He; apply negb_true_iff, orb_false_iff in He;
      apply negb_true_iff; tauto. }
  destruct (Hquiet (scan_tag DEVICE_ID w) m) as [S1 S2];
    [destruct b; discipline; reflexivity|].
  destruct (Hquiet (sleep 100 (nap_loop w))
              (after (poll_buttons w (after (scan_tag DEVICE_ID w m)))))
    as [Z1 Z2]; [discipline; reflexivity|].
  unfold poll_buttons in Z1, Z2. rewrite S1, S2, Z1, Z2.
  rewrite (proj1 (poll_play_pause_counts b w _)),
    (proj2 (poll_play_pause_counts b w _)),
    (proj1 (poll_next_counts b w _)), (proj2 (poll_next_counts b w _)),
    (proj1 (poll_prev_counts b w _)), (proj2 (poll_prev_counts b w _)).
  destruct b; cbn [button_eqb andb]; split;
    repeat match goal with |- context [held w ?x] => destruct (held w x) end;
    reflexivity.
Qed.

Lemma loop_counts (b : button) (ws : list world) (m : machine) :
  returned (loop DEVICE_ID ws m) = Ok tt ->
  tally (is_poll b) (trace (loop DEVICE_ID ws m)) = length ws /\
  tally (is_press b) (trace (loop DEVICE_ID ws m))
  = length (filter (fun w => held w b) ws).
Proof.
  revert m. induction ws as [|w ws IH]; intros m Hr; [cbn; auto|].
  cbn [loop] in *. apply bind_ok_inv in Hr. destruct Hr as ([] & Ht & Hl).
  rewrite (trace_bind_ok _ _ m tt Ht), !tally_app.
  destruct (tick_counts b w m Ht) as [-> ->].
  destruct (IH _ Hl) as [-> ->]. cbn [filter length].
  destruct (held w b); cbn [length]; auto.
Qed.

(** **** Polls and handlers pair up *)

Lemma served_app (tr1 tr2 : list (N * event)) :
  served tr1 -> served tr2 -> served (tr1 ++ tr2).
Proof. induction 1; cbn; intros; auto using served. Qed.

Lemma served_unconcerned (tr : list (N * event)) :
  forallb (fun te => negb (is_button_event (snd te))) tr = true -> served tr.
Proof.
  induction tr as [|[t e] tr IH]; cbn; intros H; [constructor|].
  apply andb_prop in H. destruct H as [He Htr].
  apply served_other; [now apply negb_true_iff | now apply IH].
Qed.

Lemma serves_unconcerned {A} (c : M A) :
  emits (fun e => negb (is_button_event e)) c -> serves c.
Proof. intros H m. apply served_unconcerned, H. Qed.

Lemma serves_bind {A B} (c : M A) (k : A -> M B) :
  serves c -> (forall a, serves (k a)) -> serves (bind c k).
Proof.
  intros Hc Hk m. destruct (returned (c m)) as [a|e] eqn:E.
  - rewrite (bind_ok c k m a E). cbn. apply served_app; [apply Hc | apply Hk].
  - rewrite (bind_raise c k m e E). cbn. apply Hc.
Qed.

Lemma bind_assoc {A B C} (c : M A) (k : A -> M B) (h : B -> M C) (m : machine) :
  bind (bind c k) h m = bind c (fun a => bind (k a) h) m.
Proof.
  unfold bind. destruct (c m) as [[a|e] m1 t1]; [|reflexivity].
  destruct (k a m1) as [[x|e] m2 t2]; [|reflexivity].
  destruct (h x m2) as [r m3 t3]. now rewrite app_assoc.
Qed.

Lemma serves_block (b : button) (w : world) (body : M unit) (n : nap) :
  emits (fun e => negb (is_button_event e)) body ->
  serves (lvl <- GPIO_input w (pin_of b) ;;
          if level_eqb lvl LOW then (print (ButtonPressed b) ;; body) ;; sleep 300 n
          else ret tt).
Proof.
  intros He m. unfold GPIO_input.
  rewrite (bind_ok _ _ m (gpio w (pin_of b))) by reflexivity.
  cbn [emitted after emit bind ret app].
  destruct (gpio w (pin_of b)); cbn [level_eqb].
  - rewrite bind_assoc.
    rewrite (bind_ok (print (ButtonPressed b)) _ m tt) by reflexivity.
    cbn [emitted after print emit app]. apply served_pressed.
    apply serves_bind; [now apply serves_unconcerned|].
    intros _. apply serves_unconcerned. discipline; reflexivity.
  - cbn. apply served_released. constructor.
Qed.

Lemma tick_serves (w : world) : serves (tick DEVICE_ID w).
Proof.
  unfold tick, poll_buttons.
  apply serves_bind; [apply serves_unconcerned; discipline; reflexivity|].
  intros _. apply serves_bind;
    [|intros _; apply serves_unconcerned; discipline; reflexivity].
  apply serves_bind; [|intros _; apply serves_bind; [|intros _]].
  - unfold poll_play_pause, handle_play_pause.
    apply (serves_block PlayPause). discipline; reflexivity.
  - unfold poll_next, handle_next.
    apply (serves_block NextTrack). discipline; reflexivity.
  - unfold poll_prev, handle_previous.
    apply (serves_block PreviousTrack). discipline; reflexivity.
Qed.

Lemma loop_serves (ws : list world) : serves (loop DEVICE_ID ws).
Proof.
  induction ws as [|w ws IH]; cbn [loop].
  - intros m. constructor.
  - apply serves_bind; [apply tick_serves | intros _; exact IH].
Qed.

Lemma served_honoured (tr : list (N * event)) : served tr -> honoured tr.
Proof.
  induction 1 as [|t e tr He _ IH|t pin tr _ IH|t b tr _ IH];
    intros j t' b' Hj.
  - destruct j; discriminate.
  - destruct j as [|j]; cbn in Hj; [|now apply IH].
    injection Hj as -> ->. discriminate.
  - destruct j as [|j]; cbn in Hj; [discriminate | now apply IH].
  - destruct j as [|[|j]]; cbn in Hj.
    + injection Hj as -> Hpin. apply pin_of_inj in Hpin. now subst.
    + discriminate.
    + now apply IH.
Qed.

(** A handler starts only right after the poll that read its button
    pressed. *)
Lemma served_announced (tr : list (N * event)) :
  served tr ->
  forall j t b,
    nth_error tr j = Some (t, Print (ButtonPressed b)) ->
    exists j', j = S j' /\
               nth_error tr j' = Some (t, GpioInput (pin_of b) LOW).
Proof.
  induction 1 as [|t e tr He _ IH|t pin tr _ IH|t b tr _ IH];
    intros j t' b' Hj.
  - destruct j; discriminate.
  - destruct j as [|j]; cbn in Hj.
    + injection Hj as -> ->. discriminate.
    + destruct (IH j t' b' Hj) as (j' & -> & H'). exists (S j'). auto.
  - destruct j as [|j]; cbn in Hj; [discriminate|].
    destruct (IH j t' b' Hj) as (j' & -> & H'). exists (S j'). auto.
  - destruct j as [|[|j]]; cbn in Hj.
    + discriminate.
    + injection Hj as -> ->. exists 0%nat. auto.
    + destruct (IH j t' b' Hj) as (j' & -> & H'). exists (S (S j')). auto.
Qed.

(** C5 (amended).  The loop learns of a button only by polling its pin,
    once in every iteration that runs to its end, and it honours a press
    exactly when a poll reads the pin LOW: the handler then runs at once,
    so the number of honoured presses of a button is the number of
    iterations whose poll read it pressed.  After an honoured press the
    button is not polled again before the 300 ms of the debounce sleep and
    the 100 ms of the loop delay have passed: a press that falls into this
    gap is ignored, so no poll falls within the window after an honoured
    press and two honoured presses are more than the window apart. *)
Theorem presses_are_debounced (ws : list world) (m : machine) (b : button) :
  let r := loop DEVICE_ID ws m in
  let tr := emitted r in
  debounced b tr /\ presses_apart b tr /\ honoured tr /\
  left_alone b tr /\
  (returned r = Ok tt ->
   tally (is_poll b) (trace r) = length ws /\
   tally (is_press b) (trace r) = length (filter (fun w => held w b) ws)).
Proof.
  cbv zeta. pose proof (loop_debounced b ws m) as Hd.
  pose proof (loop_serves ws m) as Hs.
  repeat match goal with |- _ /\ _ => split end.
  - exact Hd.
  - intros i j t1 t2 Hij Hi Hj.
    destruct (served_announced _ Hs j t2 b Hj) as (j' & -> & Hj').
    assert (i <> j') by (intros ->; rewrite Hi in Hj'; discriminate).
    apply (Hd i j' t1 t2 LOW); [lia | assumption | assumption].
  - now apply served_honoured.
  - apply loop_left_alone.
  - apply loop_counts.
Qed.

End Run.

End Debounce.

(** *** Leaving the loop *)

Module Shutdown.
Import Registry Player PlayerSpec PlayerFacts Scans.
#[local] Open Scope list_scope.

Section Exit.

Variable DEVICE_ID : option string.

(** C8.  While the loop runs, the GPIO cleanup has not been called.  As
    soon as an exception leaves the loop, in whichever iteration, the script
    ends: on [KeyboardInterrupt] after printing the farewell, on anything
    else with that exception still raised; in both cases the cleanup is
    called exactly once, as the last thing the script does. *)
Theorem cleanup_runs_exactly_once (ws : list world) (m : machine) :
  match main DEVICE_ID ws m with
  | (Running, _, tr) =>
      returned (loop DEVICE_ID ws m) = Ok tt /\
      tally is_cleanup (map snd tr) = 0
  | (Exited pending, _, tr) =>
      (exists e, returned (loop DEVICE_ID ws m) = Raise e /\
                 pending = if isinstance_KeyboardInterrupt e then None else Some e) /\
      tally is_cleanup (map snd tr) = 1 /\
      exists pre t, tr = pre ++ [(t, GpioCleanup)]
  end.
Proof.
  unfold main.
  rewrite (bind_ok (print Ready) _ m tt) by reflexivity.
  cbn [emitted after print emit returned app].
  pose proof (emits_none is_cleanup (loop DEVICE_ID ws) m
                (loop_emits_no_cleanup DEVICE_ID ws)) as Hnone.
  unfold trace in Hnone.
  destruct (loop DEVICE_ID ws m) as [[[]|e] m1 t1]; cbn [returned emitted] in *.
  - split; [reflexivity|]. exact Hnone.
  - unfold try_finally, try_except, raise, print, GPIO_cleanup, emit.
    destruct e; cbn [isinstance_KeyboardInterrupt returned after emitted app];
      (split; [eexists; split; reflexivity|]);
      (split;
       [ cbn [map snd]; rewrite ?map_app, ?tally_app; cbn [map snd];
         unfold tally in *; cbn [filter is_cleanup length] in *;
         rewrite ?filter_app, ?length_app; cbn [filter is_cleanup length];
         rewrite ?Hnone; reflexivity
       | ]).
    all: rewrite ?app_comm_cons;
         match goal with
         | |- context [?l ++ [(now ?m', GpioCleanup)]] =>
             exists l, (now m'); reflexivity
         | |- context [?l ++ [?x; (now ?m', GpioCleanup)]] =>
             exists (l ++ [x]), (now m'); now rewrite <- app_assoc
         end.
Qed.

End Exit.

End Shutdown.

(** ** Properties of app.py *)

Module AppFacts.
Import Registry App AppSpec.

Lemma strip_prefix_app (p s : string) : strip_prefix p (p ++ s) = Some s.
Proof.
  induction p as [|a p IH]; cbn; [now destruct s|].
  now rewrite Ascii.eqb_refl.
Qed.

Lemma strip_prefix_some (p s r : string) :
  strip_prefix p s = Some r -> s = p ++ r.
Proof.
  revert s. induction p as [|a p IH]; intros s H.
  - destruct s; cbn in H; now injection H as <-.
  - destruct s as [|c s]; cbn in H; [discriminate|].
    destruct (Ascii.eqb_spec a c); [|discriminate].
    subst c. cbn. f_equal. now apply IH.
Qed.

Lemma alnum_run_spec (s : string) :
  let (run, rest) := alnum_run s in
  s = run ++ rest /\ all_alnum run = true /\ starts_alnum rest = false.
Proof.
  induction s as [|c s IH]; cbn; [auto|].
  destruct (is_alnum c) eqn:E.
  - destruct (alnum_run s) as [run rest]. destruct IH as (-> & Hrun & Hrest).
    cbn. now rewrite E.
  - cbn. now rewrite E.
Qed.

Lemma alnum_run_app (uid post : string) :
  all_alnum uid = true -> starts_alnum post = false ->
  alnum_run (uid ++ post) = (uid, post).
Proof.
  intros Hu Hp. induction uid as [|c uid IH]; cbn in *.
  - destruct post as [|c post]; cbn in *; [reflexivity | now rewrite Hp].
  - apply andb_prop in Hu. destruct Hu as [-> Hu]. now rewrite IH.
Qed.

Lemma alnum_run_nonempty (uid post : string) :
  uid <> "" -> all_alnum uid = true ->
  exists c run rest, alnum_run (uid ++ post) = (String c run, rest).
Proof.
  intros Hne Hu. destruct uid as [|c uid]; [contradiction|].
  cbn in *. apply andb_prop in Hu. destruct Hu as [-> _].
  destruct (alnum_run (uid ++ post)); eauto.
Qed.

Lemma try_alternatives_some {R} (alts : list string) (s : string)
    (k : string -> string -> option R) (r : R) :
  try_alternatives alts s k = Some r ->
  exists a s', In a alts /\ strip_prefix a s = Some s' /\ k a s' = Some r.
Proof.
  induction alts as [|a alts IH]; cbn; [discriminate|].
  destruct (strip_prefix a s) as [s'|] eqn:E.
  - destruct (k a s') as [r'|] eqn:K.
    + intros H. injection H as <-. eauto 6.
    + intros H. destruct (IH H) as (a' & s'' & ? & ? & ?). eauto 7.
  - intros H. destruct (IH H) as (a' & s'' & ? & ? & ?). eauto 7.
Qed.

(** What a match at the head of [s] reports is an occurrence of the
    pattern there, with the identifier taken as far as it goes. *)
Lemma match_here_sound (s mt uid : string) :
  match_here s = Some (mt, uid) ->
  exists post, occurs_at s "" mt uid post /\ starts_alnum post = false.
Proof.
  unfold match_here.
  destruct (strip_prefix "open.spotify.com/" s) as [s1|] eqn:E1; [|discriminate].
  intros H. apply try_alternatives_some in H.
  destruct H as (a & s2 & Hin & E2 & H).
  destruct (strip_prefix "/" s2) as [s3|] eqn:E3; [|discriminate].
  pose proof (alnum_run_spec s3) as Hrun.
  destruct (alnum_run s3) as [[|c run] rest]; [discriminate|].
  injection H as <- <-. destruct Hrun as (-> & Hall & Hrest).
  apply strip_prefix_some in E1, E2, E3. subst s s1 s2.
  exists rest. repeat split; auto. discriminate.
Qed.

(** Where the pattern occurs at the head of [s], a match is found there. *)
Lemma match_here_complete (s mt uid post : string) :
  occurs_at s "" mt uid post ->
  exists uid', match_here s = Some (mt, uid') /\
               (starts_alnum post = false -> uid' = uid).
Proof.
  intros (-> & Hin & Hne & Hall). unfold match_here.
  change ("" ++ "open.spotify.com/" ++ mt ++ "/" ++ uid ++ post)
    with ("open.spotify.com/" ++ (mt ++ "/" ++ uid ++ post)).
  rewrite strip_prefix_app.
  destruct (alnum_run_nonempty uid post Hne Hall) as (c & run & rest & Hrun).
  assert (Hmax : starts_alnum post = false -> String c run = uid).
  { intros Hp. rewrite (alnum_run_app uid post Hall Hp) in Hrun. congruence. }
  destruct Hin as [<-|[<-|[<-|[]]]]; cbn; rewrite Hrun; eauto.
Qed.

Lemma search_sound (link mt uid : string) :
  re_search link = Some (mt, uid) ->
  exists pre post, first_match link pre mt uid post.
Proof.
  induction link as [|c link IH]; cbn [re_search].
  - cbn. discriminate.
  - destruct (match_here (String c link)) as [g|] eqn:E.
    + intros H. injection H as ->.
      destruct (match_here_sound _ _ _ E) as (post & Hocc & Hpost).
      exists "", post.
      split; [exact Hocc | split; [exact Hpost | intros; apply Nat.le_0_l]].
    + intros H. destruct (IH H) as (pre & post & Hocc & Hpost & Hleft).
      exists (String c pre), post. split; [|split; [assumption|]].
      * destruct Hocc as (-> & ? & ? & ?). repeat split; auto.
      * intros pre' mt' uid' post' Hocc'. destruct pre' as [|c' pre'].
        -- destruct (match_here_complete _ _ _ _ Hocc') as (u & Hu & _).
           congruence.
        -- cbn. apply le_n_S. apply (Hleft pre' mt' uid' post').
           destruct Hocc' as (Heq & ? & ? & ?). cbn in Heq.
           injection Heq as _ ->. repeat split; auto.
Qed.

Lemma search_none (link : string) :
  re_search link = None -> no_match link.
Proof.
  induction link as [|c link IH]; cbn [re_search];
    intros H pre mt uid post Hocc.
  - destruct pre; [|destruct Hocc as [Heq _]; discriminate].
    destruct (match_here_complete _ _ _ _ Hocc) as (u & Hu & _).
    now rewrite Hu in H.
  - destruct (match_here (String c link)) as [g|] eqn:E; [discriminate|].
    destruct pre as [|c' pre].
    + destruct (match_here_complete _ _ _ _ Hocc) as (u & Hu & _). congruence.
    + apply (IH H pre mt uid post). destruct Hocc as (Heq & ? & ? & ?).
      cbn in Heq. injection Heq as _ ->. repeat split; auto.
Qed.

Lemma search_complete (link pre mt uid post : string) :
  first_match link pre mt uid post -> re_search link = Some (mt, uid).
Proof.
  revert link. induction pre as [|c pre IH]; intros link (Hocc & Hpost & Hleft).
  - destruct (match_here_complete _ _ _ _ Hocc) as (u & Hu & Hmax).
    rewrite (Hmax Hpost) in Hu. destruct link; cbn [re_search]; now rewrite Hu.
  - destruct Hocc as (-> & Hin & Hne & Hall). cbn [append re_search].
    destruct (match_here (String c _)) as [[mt' uid']|] eqn:E.
    + destruct (match_here_sound _ _ _ E) as (post' & Hocc' & _).
      specialize (Hleft _ _ _ _ Hocc'). cbn in Hleft. inversion Hleft.
    + apply IH. repeat split; auto.
      intros pre' mt' uid' post' (Heq & ? & ? & ?).
      apply le_S_n. apply (Hleft (String c pre') mt' uid' post').
      repeat split; auto. cbn. now rewrite Heq.
Qed.

(** C9.  When the link submitted to the add or the edit route holds the
    pattern, the route takes the leftmost occurrence with its identifier at
    full length and stores the URI [spotify:<type>:<id>] and the type: add
    in a new row, edit in the row of the key it was given, both then
    redirecting to the index (an edit whose key is beyond the integers
    SQLite stores fails with a 500 instead and changes nothing).  When the
    link does not hold the pattern, the route answers 400 and leaves the
    table as it is.  Every link is of one of the two kinds.  The link
    [https://open.spotify.com/track/abc123] gives [spotify:track:abc123]
    and [track]. *)
Theorem link_decides_the_row (f : form) (id : N) (t : table) :
  let link := form_spotify_link f in
  (forall pre mt uid post,
     first_match link pre mt uid post ->
     extract_uri_and_type link = (Some (canonical_uri mt uid), Some mt) /\
     add f t = (RedirectIndex,
                insert_tag t (form_tag_id f) (canonical_uri mt uid) mt
                  (form_comment f)) /\
     ((id <= SQLITE_MAX)%N ->
      edit id f t = (RedirectIndex,
                     update_tag t id (form_tag_id f) (canonical_uri mt uid) mt
                       (form_comment f))) /\
     ((SQLITE_MAX < id)%N -> edit id f t = (InternalServerError, t))) /\
  (no_match link ->
     extract_uri_and_type link = (None, None) /\
     add f t = (Status "Invalid Spotify link" 400, t) /\
     edit id f t = (Status "Invalid Spotify link" 400, t)) /\
  ((exists pre mt uid post, first_match link pre mt uid post) \/ no_match link) /\
  extract_uri_and_type "https://open.spotify.com/track/abc123"
  = (Some "spotify:track:abc123", Some "track").
Proof.
  cbv zeta.
  assert (Hnone : no_match (form_spotify_link f) ->
                  re_search (form_spotify_link f) = None).
  { intros H. destruct (re_search (form_spotify_link f)) as [[mt uid]|] eqn:E;
      [|reflexivity].
    destruct (search_sound _ _ _ E) as (pre & post & Hfirst).
    destruct Hfirst as [Hocc _]. destruct (H _ _ _ _ Hocc). }
  repeat match goal with |- _ /\ _ => split end.
  - intros pre mt uid post H.
    repeat match goal with |- _ /\ _ => split end.
    + unfold extract_uri_and_type. now rewrite (search_complete _ _ _ _ _ H).
    + unfold add, extract_uri_and_type.
      now rewrite (search_complete _ _ _ _ _ H).
    + intros Hid. unfold edit, extract_uri_and_type.
      rewrite (search_complete _ _ _ _ _ H).
      apply N.leb_le in Hid. now rewrite Hid.
    + intros Hid. unfold edit, extract_uri_and_type.
      rewrite (search_complete _ _ _ _ _ H).
      apply N.leb_gt in Hid. now rewrite Hid.
  - intros H.
    repeat match goal with |- _ /\ _ => split end.
    + unfold extract_uri_and_type. now rewrite (Hnone H).
    + unfold add, extract_uri_and_type. now rewrite (Hnone H).
    + unfold edit, extract_uri_and_type. now rewrite (Hnone H).
  - destruct (re_search (form_spotify_link f)) as [[mt uid]|] eqn:E.
    + left. destruct (search_sound _ _ _ E) as (pre & post & H). eauto.
    + right. now apply search_none.
  - reflexivity.
Qed.

End AppFacts.

(** ** Further properties of player.py *)

(** *** What a scan does to the slot *)

Module Lookup.
Import Registry Player PlayerSpec PlayerFacts Containment Scans.
#[local] Open Scope list_scope.

Lemma select_by_tag_app (rs1 rs2 : list row) (tag : string) :
  select_by_tag (rs1 ++ rs2) tag = select_by_tag rs1 tag ++ select_by_tag rs2 tag.
Proof. unfold select_by_tag. now rewrite filter_app, map_app. Qed.

Lemma select_by_tag_none (rs : list row) (tag : string) :
  Forall (fun r => col_tag_id r <> tag) rs -> select_by_tag rs tag = [].
Proof.
  unfold select_by_tag. induction 1 as [|r rs Hr _ IH]; cbn; [reflexivity|].
  destruct (String.eqb_spec (col_tag_id r) tag); [contradiction | exact IH].
Qed.

Lemma fetchone_none_inv (rs : list row) (tag : string) :
  fetchone (select_by_tag rs tag) = None ->
  Forall (fun r => col_tag_id r <> tag) rs.
Proof.
  unfold select_by_tag. induction rs as [|r rs IH]; cbn; [constructor|].
  destruct (String.eqb_spec (col_tag_id r) tag); cbn; [discriminate|].
  intros H. constructor; auto.
Qed.

Lemma fetchone_first (pre post : list row) (r0 : row) (tag : string) :
  Forall (fun r => col_tag_id r <> tag) pre ->
  col_tag_id r0 = tag ->
  fetchone (select_by_tag (pre ++ r0 :: post) tag)
  = Some (col_spotify_uri r0, col_media_type r0).
Proof.
  intros Hpre Hr0. rewrite select_by_tag_app, (select_by_tag_none _ _ Hpre).
  unfold select_by_tag. cbn. rewrite Hr0, String.eqb_refl. reflexivity.
Qed.

Section Lookup.

Variable DEVICE_ID : option string.

(** X1.  [get_tag_data] sends one SELECT and touches nothing else.  Of the
    rows the SELECT yields it returns the URI and type of the first one
    that carries the tag, so when a tag is registered twice the earlier row
    wins; it returns [None] exactly when no row carries the tag. *)
Theorem lookup_returns_first_row
    (w : world) (m : machine) (tag : string) (rs : list row) :
  ans (db w) = Ok rs ->
  let r := get_tag_data w tag m in
  trace r = [Select tag] /\
  last_tag_id (after r) = last_tag_id m /\
  (forall pre r0 post,
     rs = pre ++ r0 :: post ->
     Forall (fun r => col_tag_id r <> tag) pre ->
     col_tag_id r0 = tag ->
     returned r = Ok (Some (col_spotify_uri r0, col_media_type r0))) /\
  (returned r = Ok None <-> Forall (fun r => col_tag_id r <> tag) rs).
Proof.
  intros Hdb. cbv zeta. unfold get_tag_data. monad. cbn. rewrite Hdb. cbn.
  repeat split.
  - intros pre r0 post -> Hpre Hr0. now rewrite (fetchone_first pre post r0 tag).
  - intros H. apply fetchone_none_inv. now injection H.
  - intros H. now rewrite (no_row_fetches_nothing rs tag H).
Qed.

(** X2.  When reading the tag fails with an [Exception], the scan prints
    the error and nothing else happens: no lookup, no backend call, the slot
    keeps its value, and the iteration goes on. *)
Theorem reader_failure_is_reported (w : world) (m : machine) (e : exn) :
  ans (reader_read w) = Raise e ->
  isinstance_Exception e = true ->
  let r := scan_tag DEVICE_ID w m in
  returned r = Ok tt /\
  trace r = [ReaderRead; Print (AuthError e)] /\
  last_tag_id (after r) = last_tag_id m.
Proof.
  intros Hread He. cbv zeta. unfold scan_tag. monad. cbn.
  rewrite Hread. cbn. rewrite He. cbn. auto.
Qed.

(** X3.  When the registry lookup of a new tag fails with an [Exception]
    (the table is missing, the file is locked), the scan prints the error,
    makes no backend call and leaves the slot as it was, so the next scan of
    the tag tries the lookup again. *)
Theorem lookup_failure_is_reported
    (w : world) (m : machine) (tag : string) (e : exn) :
  ans (reader_read w) = Ok tag ->
  last_tag_id m <> Some tag ->
  ans (db w) = Raise e ->
  isinstance_Exception e = true ->
  let r := scan_tag DEVICE_ID w m in
  returned r = Ok tt /\
  trace r = [ReaderRead; Print (TagScanned tag); Select tag; Print (AuthError e)] /\
  last_tag_id (after r) = last_tag_id m /\
  forall w', ans (reader_read w') = Ok tag ->
    exists rest,
      trace (scan_tag DEVICE_ID w' (after r))
      = ReaderRead :: Print (TagScanned tag) :: Select tag :: rest.
Proof.
  intros Hread Hlast Hdb He. cbv zeta.
  assert (H : returned (scan_tag DEVICE_ID w m) = Ok tt /\
              trace (scan_tag DEVICE_ID w m)
              = [ReaderRead; Print (TagScanned tag); Select tag; Print (AuthError e)] /\
              last_tag_id (after (scan_tag DEVICE_ID w m)) = last_tag_id m).
  { unfold scan_tag, get_tag_data. monad. cbn. rewrite Hread. cbn.
    rewrite option_string_eqb_neq by congruence. cbn. rewrite Hdb. cbn.
    rewrite He. cbn. auto. }
  destruct H as (Hr & Ht & Hl). repeat split; try assumption.
  intros w' Hread'. apply scan_new_looks_up; [assumption | congruence].
Qed.

(** What [play_media] comes to once the transfer went through. *)
Lemma play_media_after_transfer (w : world) (uri mt : string) (m : machine) :
  ans (sp_transfer_playback w) = Ok tt ->
  interrupted (nap_settle w) = false ->
  signalled (sp_start_playback w) = false ->
  let r := play_media DEVICE_ID w uri mt m in
  returned r = Ok tt /\
  (forall e, ans (sp_start_playback w) = Raise e ->
     mt = "track" \/ mt = "album" \/ mt = "playlist" ->
     In (Print (StartError e)) (trace r)).
Proof.
  intros Hx Hnap Hs. cbv zeta. unfold play_media. monad. cbn.
  rewrite Hx. cbn. rewrite Hnap. cbn. unfold signalled in Hs.
  destruct (String.eqb_spec mt "track") as [->|N1]; cbn.
  - destruct (ans (sp_start_playback w)) as [[]|e]; cbn.
    + split; [reflexivity|]. intros e H. discriminate.
    + apply negb_false_iff in Hs. rewrite Hs. cbn. split; [reflexivity|].
      intros e' H _. injection H as <-. cbn. auto.
  - destruct (String.eqb_spec mt "album") as [->|N2]; cbn.
    + destruct (ans (sp_start_playback w)) as [[]|e]; cbn.
      * split; [reflexivity|]. intros e H. discriminate.
      * apply negb_false_iff in Hs. rewrite Hs. cbn. split; [reflexivity|].
        intros e' H _. injection H as <-. cbn. auto.
    + destruct (String.eqb_spec mt "playlist") as [->|N3]; cbn.
      * destruct (ans (sp_start_playback w)) as [[]|e]; cbn.
        -- split; [reflexivity|]. intros e H. discriminate.
        -- apply negb_false_iff in Hs. rewrite Hs. cbn. split; [reflexivity|].
           intros e' H _. injection H as <-. cbn. auto.
      * split; [reflexivity|]. intros e _ [H|[H|H]]; contradiction.
Qed.

(** X4.  Once the transfer call of a newly scanned, registered tag has gone
    through, the tag is put into the slot whatever comes of the start: also
    when the start call fails with an [Exception] (the failure is printed)
    and when the row's media type is none of the three known ones.  The
    next scan of the tag is then dropped as a duplicate, without another
    attempt to start it. *)
Theorem tag_is_recorded_once_transferred
    (w : world) (m : machine) (tag uri mt : string) (rs : list row) :
  ans (reader_read w) = Ok tag ->
  last_tag_id m <> Some tag ->
  ans (db w) = Ok rs ->
  fetchone (select_by_tag rs tag) = Some (uri, mt) ->
  ans (sp_transfer_playback w) = Ok tt ->
  interrupted (nap_settle w) = false ->
  signalled (sp_start_playback w) = false ->
  let r := scan_tag DEVICE_ID w m in
  returned r = Ok tt /\
  last_tag_id (after r) = Some tag /\
  (forall e, ans (sp_start_playback w) = Raise e ->
     mt = "track" \/ mt = "album" \/ mt = "playlist" ->
     In (Print (StartError e)) (trace r)) /\
  forall w', ans (reader_read w') = Ok tag ->
    trace (scan_tag DEVICE_ID w' (after r)) = [ReaderRead; Print DuplicateScan].
Proof.
  intros Hread Hlast Hdb Hrow Hx Hnap Hs. cbv zeta.
  destruct (scan_hit DEVICE_ID w m tag uri mt rs Hread Hlast Hdb Hrow)
    as (Htr & Hl & Hr).
  match type of Htr with context [play_media _ _ _ _ ?m1] =>
    destruct (play_media_after_transfer w uri mt m1 Hx Hnap Hs) as (Hp & Herr)
  end.
  rewrite Hp in Htr, Hl, Hr. repeat split; try assumption.
  - intros e He Hmt. rewrite Htr. apply in_or_app. right.
    apply in_or_app. left. now apply Herr.
  - intros w' Hread'.
    now apply (scan_duplicate DEVICE_ID w' _ tag Hread' Hl).
Qed.

(** One scan either leaves the slot alone or puts into it the tag it read
    and found. *)
Lemma scan_slot (w : world) (m : machine) :
  let r := scan_tag DEVICE_ID w m in
  last_tag_id (after r) = last_tag_id m \/
  exists tag, finds tag w /\ last_tag_id (after r) = Some tag.
Proof.
  cbv zeta.
  destruct (ans (reader_read w)) as [tag|e] eqn:Hread.
  - destruct (option_string_eqb (last_tag_id m) (Some tag)) eqn:E.
    + apply option_string_eqb_eq in E. left.
      destruct (scan_duplicate DEVICE_ID w m tag Hread E) as (_ & Hl & _).
      congruence.
    + assert (Hn : last_tag_id m <> Some tag).
      { intros H. rewrite H, option_string_eqb_refl in E. discriminate. }
      destruct (ans (db w)) as [rs|e] eqn:Hdb.
      * destruct (fetchone (select_by_tag rs tag)) as [[uri mt]|] eqn:Hrow.
        -- destruct (scan_hit DEVICE_ID w m tag uri mt rs Hread Hn Hdb Hrow)
             as (_ & Hl & _).
           destruct (returned (play_media DEVICE_ID w uri mt _)); [|now left].
           right. exists tag. split; [|exact Hl].
           split; [assumption|]. exists rs. split; [assumption|]. congruence.
        -- left. apply fetchone_none_inv in Hrow.
           apply (scan_miss DEVICE_ID w m tag rs Hread Hn Hdb Hrow).
      * left. unfold scan_tag, get_tag_data. monad. cbn. rewrite Hread. cbn.
        rewrite option_string_eqb_neq by congruence. cbn. rewrite Hdb. cbn.
        destruct (isinstance_Exception e); reflexivity.
  - left. unfold scan_tag. monad. cbn. rewrite Hread. cbn.
    destruct (isinstance_Exception e); reflexivity.
Qed.

Lemma tick_slot (w : world) (m : machine) :
  let r := tick DEVICE_ID w m in
  last_tag_id (after r) = last_tag_id m \/
  exists tag, finds tag w /\ last_tag_id (after r) = Some tag.
Proof.
  cbv zeta. unfold tick.
  assert (Hrest : last_tag_id
            (after ((scan_tag DEVICE_ID w ;; poll_buttons w ;; sleep 100 (nap_loop w)) m))
          = last_tag_id (after (scan_tag DEVICE_ID w m))).
  { destruct (returned (scan_tag DEVICE_ID w m)) as [[]|e] eqn:E.
    - rewrite (bind_ok _ _ m tt E). cbn [after].
      apply (rest_of_tick_keeps_tag w).
    - now rewrite (bind_raise _ _ m e E). }
  rewrite Hrest. apply scan_slot.
Qed.

(** X5.  Through any number of iterations the slot is only ever written by
    a scan that read a tag and found a row for it: after the run it holds
    either what it held before or a tag that one of the iterations read and
    found in the registry.  In particular it is never cleared: once a tag
    is recorded, some tag stays recorded until the script ends. *)
Theorem slot_holds_a_registered_scan (ws : list world) (m : machine) :
  let r := loop DEVICE_ID ws m in
  (last_tag_id (after r) = last_tag_id m \/
   exists w tag, In w ws /\ finds tag w /\ last_tag_id (after r) = Some tag) /\
  (last_tag_id m <> None -> last_tag_id (after r) <> None).
Proof.
  cbv zeta.
  assert (H : last_tag_id (after (loop DEVICE_ID ws m)) = last_tag_id m \/
              exists w tag, In w ws /\ finds tag w /\
                last_tag_id (after (loop DEVICE_ID ws m)) = Some tag).
  { revert m. induction ws as [|w ws IH]; intros m; [now left|].
    cbn [loop].
    destruct (returned (tick DEVICE_ID w m)) as [[]|e] eqn:E.
    - rewrite (bind_ok _ _ m tt E). cbn [after].
      destruct (IH (after (tick DEVICE_ID w m))) as [Hk | (w' & tag & Hin & Hf & Hl)].
      + rewrite Hk. destruct (tick_slot w m) as [Hs | (tag & Hf & Hl)].
        * now left.
        * right. exists w, tag. cbn. auto.
      + right. exists w', tag. cbn. auto.
    - rewrite (bind_raise _ _ m e E). cbn [after].
      destruct (tick_slot w m) as [Hs | (tag & Hf & Hl)].
      + now left.
      + right. exists w, tag. cbn. auto. }
  split; [exact H|].
  intros Hsome. destruct H as [-> | (w & tag & _ & _ & ->)];
    [assumption | discriminate].
Qed.

(** X20.  [play_media] catches a failed transfer only when it is a
    [SpotifyException].  A transfer that fails with any other [Exception]
    (a network error, say) leaves [play_media], is caught by the handler of
    the loop body and printed there; no start call is made and the
    assignment to the slot is skipped, so the next scan of the tag is
    looked up and tried again. *)
Theorem unexpected_transfer_failure_is_retried
    (w : world) (m : machine) (tag uri mt : string) (rs : list row) (e : exn) :
  ans (reader_read w) = Ok tag ->
  last_tag_id m <> Some tag ->
  ans (db w) = Ok rs ->
  fetchone (select_by_tag rs tag) = Some (uri, mt) ->
  ans (sp_transfer_playback w) = Raise e ->
  isinstance_Exception e = true ->
  e <> SpotifyException ->
  let r := scan_tag DEVICE_ID w m in
  returned r = Ok tt /\
  trace r = [ReaderRead; Print (TagScanned tag); Select tag;
             Print (Playing mt uri);
             Spotify (transfer_playback DEVICE_ID true);
             Print (AuthError e)] /\
  last_tag_id (after r) = last_tag_id m /\
  forall w', ans (reader_read w') = Ok tag ->
    exists rest,
      trace (scan_tag DEVICE_ID w' (after r))
      = ReaderRead :: Print (TagScanned tag) :: Select tag :: rest.
Proof.
  intros Hread Hlast Hdb Hrow Hx He Hne. cbv zeta.
  destruct (scan_hit DEVICE_ID w m tag uri mt rs Hread Hlast Hdb Hrow)
    as (Htr & Hl & Hr).
  match type of Htr with context [play_media _ _ _ _ ?m1] =>
    destruct (play_media_transfer_broken DEVICE_ID w m1 uri mt e Hx Hne)
      as (Hp & Ht)
  end.
  rewrite Hp in Htr, Hl, Hr. rewrite Ht, He in Htr. rewrite He in Hr.
  repeat split; try assumption.
  intros w' Hread'. apply scan_new_looks_up; [assumption | congruence].
Qed.

End Lookup.

End Lookup.

(** *** Polling the buttons *)

Module Polling.
Import Registry Player PlayerSpec PlayerFacts Containment Scans Debounce.
#[local] Open Scope list_scope.

(** A "poll, and when pressed handle and sleep" block starts with its poll
    and polls nothing else. *)
Lemma block_polls_once (w : world) (pin : N) (body : M unit) (m : machine) :
  emits (fun e => negb (is_input e)) body ->
  filter is_input
    (trace ((lvl <- GPIO_input w pin ;;
             if level_eqb lvl LOW then body else ret tt) m))
  = [GpioInput pin (gpio w pin)].
Proof.
  intros Hb. unfold GPIO_input.
  rewrite (trace_bind_ok _ _ m (gpio w pin)) by reflexivity.
  rewrite filter_app. cbn [bind emit ret trace emitted map snd filter is_input app after].
  f_equal. destruct (level_eqb (gpio w pin) LOW).
  - now apply filter_none.
  - reflexivity.
Qed.

Section Polling.

Variable DEVICE_ID : option string.

Lemma scan_polls_nothing (w : world) :
  emits (fun e => negb (is_input e)) (scan_tag DEVICE_ID w).
Proof. discipline; reflexivity. Qed.

Lemma poll_play_pause_inputs (w : world) (m : machine) :
  filter is_input (trace (poll_play_pause w m))
  = [GpioInput BTN_PLAY_PAUSE (gpio w BTN_PLAY_PAUSE)].
Proof.
  unfold poll_play_pause. apply block_polls_once.
  unfold handle_play_pause. discipline; reflexivity.
Qed.

Lemma poll_next_inputs (w : world) (m : machine) :
  filter is_input (trace (poll_next w m)) = [GpioInput BTN_NEXT (gpio w BTN_NEXT)].
Proof.
  unfold poll_next. apply block_polls_once.
  unfold handle_next. discipline; reflexivity.
Qed.

Lemma poll_prev_inputs (w : world) (m : machine) :
  filter is_input (trace (poll_prev w m)) = [GpioInput BTN_PREV (gpio w BTN_PREV)].
Proof.
  unfold poll_prev. apply block_polls_once.
  unfold handle_previous. discipline; reflexivity.
Qed.

Lemma closing_sleep_polls_nothing (w : world) (m : machine) :
  filter is_input (trace (sleep 100 (nap_loop w) m)) = [].
Proof. apply filter_none. discipline; reflexivity. Qed.

(** X6.  An iteration polls the buttons only after the handling of the
    tag, in the order Play/Pause (pin 22), Next (27), Previous (17), each at
    most once; an iteration that runs to its end has polled each of the
    three exactly once. *)
Theorem each_button_is_polled_once (w : world) (m : machine) :
  let r := tick DEVICE_ID w m in
  filter is_input (trace (scan_tag DEVICE_ID w m)) = [] /\
  (exists rest, trace r = trace (scan_tag DEVICE_ID w m) ++ rest) /\
  (exists k, filter is_input (trace r) = firstn k (polls_of w)) /\
  (returned r = Ok tt -> filter is_input (trace r) = polls_of w).
Proof.
  cbv zeta.
  pose proof (filter_none is_input (scan_tag DEVICE_ID w) m (scan_polls_nothing w))
    as Hscan.
  split; [exact Hscan|]. split.
  { unfold tick. rewrite trace_bind. eauto. }
  assert (Hshape :
    filter is_input (trace (tick DEVICE_ID w m))
    = match returned (scan_tag DEVICE_ID w m) with
      | Raise _ => []
      | Ok _ =>
        let m1 := after (scan_tag DEVICE_ID w m) in
        GpioInput BTN_PLAY_PAUSE (gpio w BTN_PLAY_PAUSE) ::
        match returned (poll_play_pause w m1) with
        | Raise _ => []
        | Ok _ =>
          let m2 := after (poll_play_pause w m1) in
          GpioInput BTN_NEXT (gpio w BTN_NEXT) ::
          match returned (poll_next w m2) with
          | Raise _ => []
          | Ok _ => [GpioInput BTN_PREV (gpio w BTN_PREV)]
          end
        end
      end).
  { unfold tick. rewrite trace_bind, filter_app, Hscan. cbn [app].
    destruct (returned (scan_tag DEVICE_ID w m)) as [[]|e]; [|reflexivity].
    cbv zeta. set (m1 := after (scan_tag DEVICE_ID w m)).
    rewrite trace_bind, filter_app.
    assert (Hsleep : forall r : result unit,
              filter is_input
                match r with
                | Ok _ => trace (sleep 100 (nap_loop w)
                                   (after (poll_buttons w m1)))
                | Raise _ => []
                end = []).
    { intros [[]|e]; [apply closing_sleep_polls_nothing | reflexivity]. }
    rewrite Hsleep, app_nil_r. unfold poll_buttons.
    rewrite trace_bind, filter_app, poll_play_pause_inputs. cbn [app]. f_equal.
    destruct (returned (poll_play_pause w m1)) as [[]|e]; [|reflexivity].
    rewrite trace_bind, filter_app, poll_next_inputs. cbn [app]. f_equal.
    destruct (returned (poll_next w _)) as [[]|e]; [|reflexivity].
    apply poll_prev_inputs. }
  split.
  - rewrite Hshape. unfold polls_of.
    destruct (returned (scan_tag DEVICE_ID w m)) as [[]|e]; [|now exists 0].
    cbv zeta.
    destruct (returned (poll_play_pause w _)) as [[]|e]; [|now exists 1].
    destruct (returned (poll_next w _)) as [[]|e]; [now exists 3 | now exists 2].
  - intros Hr. rewrite Hshape. unfold tick in Hr.
    apply bind_ok_inv in Hr. destruct Hr as ([] & Hs & Hr). rewrite Hs.
    apply bind_ok_inv in Hr. destruct Hr as ([] & Hp & _).
    unfold poll_buttons in Hp.
    apply bind_ok_inv in Hp. destruct Hp as ([] & Hpp & Hp). cbv zeta.
    rewrite Hpp.
    apply bind_ok_inv in Hp. destruct Hp as ([] & Hn & _). rewrite Hn.
    reflexivity.
Qed.

(** **** How long an iteration lasts *)

Lemma takes_bind {A B} (d1 d2 : N) (c : M A) (k : A -> M B) :
  takes_at_least d1 c -> (forall a, takes_at_least d2 (k a)) ->
  takes_at_least (d1 + d2) (bind c k).
Proof.
  intros Hc Hk m b Hr. apply bind_ok_inv in Hr. destruct Hr as (a & Ha & Hb).
  rewrite (bind_ok c k m a Ha). cbn [after].
  specialize (Hc m a Ha). specialize (Hk a _ b Hb). lia.
Qed.

Lemma takes_timely {A} (c : M A) : timely c -> takes_at_least 0 c.
Proof. intros H m a _. destruct (H m) as [Hn _]. lia. Qed.

Lemma takes_sleep (ms : N) (n : nap) : takes_at_least ms (sleep ms n).
Proof.
  intros m a. unfold sleep. monad. destruct (interrupted n); cbn;
    [discriminate | intros _; lia].
Qed.

(** One "poll, and when pressed handle and sleep 0.3" block. *)
Lemma takes_block (w : world) (b : button) (body : M unit) (n : nap) :
  timely body ->
  takes_at_least (if held w b then 300 else 0)
    (lvl <- GPIO_input w (pin_of b) ;;
     if level_eqb lvl LOW then body ;; sleep 300 n else ret tt).
Proof.
  intros Hb m a Hr. unfold GPIO_input in *.
  rewrite (bind_ok _ _ m (gpio w (pin_of b))) in * by reflexivity.
  cbn [returned after bind emit ret emitted] in *. unfold held.
  destruct (level_eqb (gpio w (pin_of b)) LOW).
  - apply (takes_bind 0 300 body (fun _ => sleep 300 n)
             (takes_timely body Hb) (fun _ => takes_sleep 300 n) m a Hr).
  - cbn. lia.
Qed.

Lemma tick_takes (w : world) :
  takes_at_least (least_duration w) (tick DEVICE_ID w).
Proof.
  assert (H : takes_at_least
                (0 + ((if held w PlayPause then 300 else 0)
                      + ((if held w NextTrack then 300 else 0)
                         + (if held w PreviousTrack then 300 else 0)) + 100))
                (tick DEVICE_ID w)).
  { unfold tick, poll_buttons.
    apply takes_bind; [apply takes_timely; discipline|]. intros _.
    apply takes_bind; [|intros _; apply takes_sleep].
    apply takes_bind; [|intros _; apply takes_bind; [|intros _]].
    - unfold poll_play_pause. apply (takes_block w PlayPause).
      unfold handle_play_pause. discipline.
    - unfold poll_next. apply (takes_block w NextTrack).
      unfold handle_next. discipline.
    - unfold poll_prev. apply (takes_block w PreviousTrack).
      unfold handle_previous. discipline. }
  intros m a Hr. specialize (H m a Hr).
  unfold least_duration, held_count, all_buttons. cbn [filter].
  destruct (held w PlayPause), (held w NextTrack), (held w PreviousTrack);
    cbn [length N.of_nat] in *; lia.
Qed.

(** X7.  Iterations that run to their end each last at least the 100 ms
    loop delay, and 300 ms more for every button that read pressed: the tag
    reader is asked at most ten times a second, and a held button repeats
    its command at most every 400 ms. *)
Theorem iterations_take_their_time (ws : list world) (m : machine) :
  returned (loop DEVICE_ID ws m) = Ok tt ->
  (now m + fold_right N.add 0 (map least_duration ws)
   <= now (after (loop DEVICE_ID ws m)))%N /\
  (now m + 100 * N.of_nat (length ws) <= now (after (loop DEVICE_ID ws m)))%N.
Proof.
  revert m. induction ws as [|w ws IH]; intros m Hr.
  - cbn. lia.
  - cbn [loop] in *. apply bind_ok_inv in Hr. destruct Hr as ([] & Ht & Hl).
    rewrite (bind_ok _ _ m tt Ht). cbn [after map fold_right length].
    pose proof (tick_takes w m tt Ht) as H1.
    destruct (IH _ Hl) as [H2 H3]. unfold least_duration in *. lia.
Qed.

(** X8.  The Next and the Previous handler each announce the press, send
    their one command ([next_track], [previous_track]) and no other backend
    call; a failure of the command with an [Exception] is printed and the
    handler returns.  Neither touches the slot of the last tag. *)
Theorem skip_handlers_send_one_command (w : world) (m : machine) :
  let r := handle_next w m in
  let r' := handle_previous w m in
  (exists rest,
     trace r = [Print (ButtonPressed NextTrack); Spotify next_track] ++ rest /\
     tally is_backend_call rest = 0) /\
  (forall e, isinstance_Exception e = true ->
     ans (sp_next_track w) = Raise e ->
     trace r = [Print (ButtonPressed NextTrack); Spotify next_track;
                Print (SkipError e)] /\
     returned r = Ok tt) /\
  (signalled (sp_next_track w) = false -> returned r = Ok tt) /\
  last_tag_id (after r) = last_tag_id m /\
  (exists rest,
     trace r' = [Print (ButtonPressed PreviousTrack); Spotify previous_track] ++ rest /\
     tally is_backend_call rest = 0) /\
  (forall e, isinstance_Exception e = true ->
     ans (sp_previous_track w) = Raise e ->
     trace r' = [Print (ButtonPressed PreviousTrack); Spotify previous_track;
                 Print (PreviousError e)] /\
     returned r' = Ok tt) /\
  (signalled (sp_previous_track w) = false -> returned r' = Ok tt) /\
  last_tag_id (after r') = last_tag_id m.
Proof.
  cbv zeta. unfold handle_next, handle_previous, signalled. monad. cbn.
  repeat match goal with |- _ /\ _ => split end.
  - destruct (ans (sp_next_track w)) as [[]|e]; cbn;
      [|destruct (isinstance_Exception e); cbn]; eexists; split; reflexivity.
  - intros e He Hx. rewrite Hx. cbn. rewrite He. split; reflexivity.
  - intros Hs. destruct (ans (sp_next_track w)) as [[]|e]; cbn; [reflexivity|].
    apply negb_false_iff in Hs. rewrite Hs. reflexivity.
  - destruct (ans (sp_next_track w)) as [[]|e]; cbn;
      [|destruct (isinstance_Exception e); cbn]; reflexivity.
  - destruct (ans (sp_previous_track w)) as [[]|e]; cbn;
      [|destruct (isinstance_Exception e); cbn]; eexists; split; reflexivity.
  - intros e He Hx. rewrite Hx. cbn. rewrite He. split; reflexivity.
  - intros Hs. destruct (ans (sp_previous_track w)) as [[]|e]; cbn;
      [reflexivity|].
    apply negb_false_iff in Hs. rewrite Hs. reflexivity.
  - destruct (ans (sp_previous_track w)) as [[]|e]; cbn;
      [|destruct (isinstance_Exception e); cbn]; reflexivity.
Qed.

(** **** No command without a press *)

Lemma scan_sends_no_button_command (w : world) :
  emits (fun e => negb (is_button_command e)) (scan_tag DEVICE_ID w).
Proof. discipline; reflexivity. Qed.

(** A block whose button reads released is the poll alone. *)
Lemma released_block (w : world) (b : button) (body : M unit) :
  held w b = false ->
  emits (fun e => negb (is_button_command e))
    (lvl <- GPIO_input w (pin_of b) ;;
     if level_eqb lvl LOW then body else ret tt).
Proof.
  intros H m. unfold GPIO_input.
  rewrite (bind_ok _ _ m (gpio w (pin_of b))) by reflexivity.
  cbn [returned after bind emit ret emitted]. unfold held in H. rewrite H.
  reflexivity.
Qed.

Lemma quiet_tick (w : world) :
  (forall b, held w b = false) ->
  emits (fun e => negb (is_button_command e)) (tick DEVICE_ID w).
Proof.
  intros H. unfold tick, poll_buttons.
  apply emits_bind; [apply scan_sends_no_button_command|]. intros _.
  apply emits_bind; [|intros _; discipline; reflexivity].
  apply emits_bind; [|intros _; apply emits_bind; [|intros _]].
  - apply (released_block w PlayPause), H.
  - apply (released_block w NextTrack), H.
  - apply (released_block w PreviousTrack), H.
Qed.

(** X9.  The loop never acts on a button that was not read pressed: every
    announcement of a press comes right after a poll that read that
    button's pin LOW, at the same instant; and through iterations in which
    all three pins read HIGH no playback query, pause, resume, next or
    previous command is sent. *)
Theorem no_command_without_a_press (ws : list world) (m : machine) :
  let tr := emitted (loop DEVICE_ID ws m) in
  (forall j t b,
     nth_error tr j = Some (t, Print (ButtonPressed b)) ->
     exists j', j = S j' /\
                nth_error tr j' = Some (t, GpioInput (pin_of b) LOW)) /\
  (Forall (fun w => forall b, held w b = false) ws ->
   tally is_button_command (map snd tr) = 0).
Proof.
  cbv zeta. split.
  - apply served_announced. apply loop_serves.
  - intros Hws. apply (emits_none is_button_command (loop DEVICE_ID ws) m).
    clear m. induction Hws as [|w ws Hw _ IH]; cbn [loop].
    + apply emits_ret.
    + apply emits_bind; [now apply quiet_tick | intros _; exact IH].
Qed.

(** **** What ends the script *)

Lemma loop_survives (ws : list world) (m : machine) :
  Forall (fun w => undisturbed w = true) ws ->
  returned (loop DEVICE_ID ws m) = Ok tt.
Proof.
  intros Hws. revert m. induction Hws as [|w ws Hw _ IH]; intros m;
    [reflexivity|].
  cbn [loop]. destruct (tick_contains DEVICE_ID w Hw m) as [Ht _].
  rewrite (bind_ok _ _ m tt Ht). cbn [returned]. apply IH.
Qed.

(** X10.  No failure of the reader, of the registry or of the Spotify API
    ends the script: as long as no interrupt or exit request arrives, the
    script is still in its loop after any number of iterations, has not
    released the GPIO pins, and has printed its greeting first.  So when
    the script has ended, an interrupt or exit request had arrived. *)
Theorem only_a_signal_ends_the_script (ws : list world) (m : machine) :
  (Forall (fun w => undisturbed w = true) ws ->
   main DEVICE_ID ws m
   = (Running, after (loop DEVICE_ID ws m),
      (now m, Print Ready) :: emitted (loop DEVICE_ID ws m)) /\
   tally is_cleanup (trace (loop DEVICE_ID ws m)) = 0) /\
  (forall pending, fst (fst (main DEVICE_ID ws m)) = Exited pending ->
   Exists (fun w => undisturbed w = false) ws).
Proof.
  assert (Hrun : returned (loop DEVICE_ID ws m) = Ok tt ->
                 main DEVICE_ID ws m
                 = (Running, after (loop DEVICE_ID ws m),
                    (now m, Print Ready) :: emitted (loop DEVICE_ID ws m))).
  { intros Hr. unfold main.
    rewrite (bind_ok (print Ready) _ m tt) by reflexivity.
    cbn [emitted after print emit returned app].
    destruct (loop DEVICE_ID ws m) as [r m1 t1]. cbn in Hr. subst r.
    reflexivity. }
  split.
  - intros Hws. split; [apply Hrun, loop_survives, Hws|].
    apply emits_none, loop_emits_no_cleanup.
  - intros pending Hexit.
    destruct (Forall_Exists_dec (fun w => undisturbed w = true)
                (fun w => bool_dec (undisturbed w) true) ws) as [Hall|Hex].
    + rewrite (Hrun (loop_survives ws m Hall)) in Hexit. discriminate.
    + apply Exists_exists in Hex. destruct Hex as (w & Hin & Hw).
      apply Exists_exists. exists w. split; [assumption|].
      now apply not_true_is_false.
Qed.

End Polling.

End Polling.

(** ** Further properties of app.py *)

Module RegistryFacts.
Import Registry Player PlayerSpec PlayerFacts App AppSpec AppFacts Lookup.
#[local] Open Scope list_scope.
#[local] Open Scope N_scope.

(** *** Keys *)

Lemma max_bounds (d : N) (l : list N) :
  d <= fold_right N.max d l /\ Forall (fun i => i <= fold_right N.max d l) l.
Proof.
  induction l as [|i l [IH1 IH2]]; cbn; [split; [lia | constructor]|].
  split; [lia|]. constructor; [lia|].
  eapply Forall_impl; [|exact IH2]. cbn. intros j Hj. lia.
Qed.

Lemma next_rowid_fresh (t : table) :
  last_rowid t < next_rowid t /\ Forall (fun i => i < next_rowid t) (ids t).
Proof.
  unfold next_rowid, ids.
  destruct (max_bounds (last_rowid t) (map col_id (rows t))) as [H1 H2].
  split; [lia|]. eapply Forall_impl; [|exact H2]. cbn. intros j Hj. lia.
Qed.

Lemma ids_filter_sub (p : row -> bool) (l : list row) (i : N) :
  In i (map col_id (filter p l)) -> In i (map col_id l).
Proof.
  rewrite !in_map_iff. intros (r & Hr & Hin). apply filter_In in Hin.
  exists r. tauto.
Qed.

Lemma ids_filter_nodup (p : row -> bool) (l : list row) :
  NoDup (map col_id l) -> NoDup (map col_id (filter p l)).
Proof.
  induction l as [|r l IH]; cbn; intros H; [constructor|].
  inversion H as [|? ? Hnotin Hnodup]; subst.
  destruct (p r); cbn; [|now apply IH].
  constructor; [|now apply IH].
  intros Hin. apply Hnotin. now apply ids_filter_sub in Hin.
Qed.

Lemma row_of_none (l : list row) (id : N) :
  find (fun r => col_id r =? id) l = None <-> ~ In id (map col_id l).
Proof.
  induction l as [|r l IH]; cbn; [tauto|].
  destruct (N.eqb_spec (col_id r) id) as [E|E].
  - split; [discriminate | intros H; exfalso; apply H; now left].
  - rewrite IH. tauto.
Qed.

Lemma add_result (f : form) (t : table) (uri mt : string) :
  extract_uri_and_type (form_spotify_link f) = (Some uri, Some mt) ->
  add f t = (RedirectIndex,
             {| rows := rows t ++ [row_from (next_rowid t) f uri mt];
                last_rowid := next_rowid t |}).
Proof. intros H. unfold add. now rewrite H. Qed.

Lemma edit_result (id : N) (f : form) (t : table) (uri mt : string) :
  extract_uri_and_type (form_spotify_link f) = (Some uri, Some mt) ->
  id <= SQLITE_MAX ->
  edit id f t = (RedirectIndex,
                 update_tag t id (form_tag_id f) uri mt (form_comment f)).
Proof.
  intros H Hid. unfold edit. rewrite H. apply N.leb_le in Hid. now rewrite Hid.
Qed.

Lemma edit_overflow (id : N) (f : form) (t : table) (uri mt : string) :
  extract_uri_and_type (form_spotify_link f) = (Some uri, Some mt) ->
  SQLITE_MAX < id ->
  edit id f t = (InternalServerError, t).
Proof.
  intros H Hid. unfold edit. rewrite H. apply N.leb_gt in Hid. now rewrite Hid.
Qed.

Lemma delete_result (id : N) (t : table) :
  id <= SQLITE_MAX -> delete_tag id t = (RedirectIndex, delete_from_tags t id).
Proof. intros Hid. unfold delete_tag. apply N.leb_le in Hid. now rewrite Hid. Qed.

Lemma delete_overflow (id : N) (t : table) :
  SQLITE_MAX < id -> delete_tag id t = (InternalServerError, t).
Proof. intros Hid. unfold delete_tag. apply N.leb_gt in Hid. now rewrite Hid. Qed.

(** What [extract_uri_and_type] returns, whatever the link. *)
Lemma extract_shape (link : string) :
  extract_uri_and_type link = (None, None) \/
  exists mt uid,
    In mt media_types /\ uid <> "" /\ all_alnum uid = true /\
    extract_uri_and_type link = (Some (canonical_uri mt uid), Some mt).
Proof.
  unfold extract_uri_and_type.
  destruct (re_search link) as [[mt uid]|] eqn:E; [|now left].
  right. destruct (search_sound _ _ _ E) as (pre & post & (_ & Hin & Hne & Hall) & _).
  exists mt, uid. auto.
Qed.

Lemma extract_known (link uri mt : string) :
  extract_uri_and_type link = (Some uri, Some mt) -> In mt media_types.
Proof.
  intros H. destruct (extract_shape link) as [E | (mt' & uid & Hin & _ & _ & E)];
    rewrite E in H; [discriminate|]. now injection H as _ <-.
Qed.

(** X11.  A new row gets a key larger than every key in the table and
    larger than every key handed out before; the rows already there stay
    as they are and in place, and the new row comes last, holding the tag
    and the comment of the form with the URI and type taken from the link.
    Keys stay unique. *)
Theorem add_appends_a_fresh_row (f : form) (t : table) (uri mt : string) :
  extract_uri_and_type (form_spotify_link f) = (Some uri, Some mt) ->
  let t' := snd (add f t) in
  let r := row_from (next_rowid t) f uri mt in
  fst (add f t) = RedirectIndex /\
  rows t' = rows t ++ [r] /\
  Forall (fun r0 => col_id r0 < col_id r) (rows t) /\
  last_rowid t < col_id r /\
  last_rowid t' = col_id r /\
  (keyed t -> keyed t').
Proof.
  intros H. cbv zeta. rewrite (add_result f t uri mt H). cbn [fst snd rows last_rowid].
  destruct (next_rowid_fresh t) as [Hlast Hids].
  repeat match goal with |- _ /\ _ => split end; try reflexivity.
  - unfold ids in Hids. rewrite Forall_map in Hids. exact Hids.
  - exact Hlast.
  - intros [Hnd Hle]. unfold keyed, ids in *. cbn [rows last_rowid].
    rewrite map_app. cbn [map row_from col_id]. split.
    + apply NoDup_app; [assumption | repeat constructor; intros [] |].
      intros i Hi [<-|[]]. rewrite Forall_forall in Hids.
      specialize (Hids _ Hi). lia.
    + apply Forall_app. split; [|repeat constructor; lia].
      eapply Forall_impl; [|exact Hids]. cbn. intros j Hj. lia.
Qed.

Lemma update_other (l : list row) (id j : N) (a b c d : string) :
  j <> id ->
  find (fun r => col_id r =? j)
    (map (fun r => if col_id r =? id
                   then {| col_id := col_id r; col_tag_id := a;
                           col_spotify_uri := b; col_media_type := c;
                           col_comment := d |}
                   else r) l)
  = find (fun r => col_id r =? j) l.
Proof.
  intros Hj. induction l as [|r l IH]; cbn; [reflexivity|].
  destruct (N.eqb_spec (col_id r) id) as [E|E]; cbn.
  - destruct (N.eqb_spec (col_id r) j) as [E'|E']; [congruence | exact IH].
  - destruct (col_id r =? j); [reflexivity | exact IH].
Qed.

Lemma update_ids (l : list row) (id : N) (a b c d : string) :
  map col_id
    (map (fun r => if col_id r =? id
                   then {| col_id := col_id r; col_tag_id := a;
                           col_spotify_uri := b; col_media_type := c;
                           col_comment := d |}
                   else r) l)
  = map col_id l.
Proof.
  induction l as [|r l IH]; cbn; [reflexivity|].
  rewrite IH. now destruct (col_id r =? id).
Qed.

Lemma update_absent (l : list row) (id : N) (a b c d : string) :
  ~ In id (map col_id l) ->
  map (fun r => if col_id r =? id
                then {| col_id := col_id r; col_tag_id := a;
                        col_spotify_uri := b; col_media_type := c;
                        col_comment := d |}
                else r) l
  = l.
Proof.
  induction l as [|r l IH]; cbn; intros H; [reflexivity|].
  destruct (N.eqb_spec (col_id r) id) as [E|E]; [tauto|].
  rewrite IH by tauto. reflexivity.
Qed.

(** X12.  An edit with a valid link and a key within the integers SQLite
    stores rewrites the row with that key and no other: every row with
    another key is as before; the row with the key now holds the form's
    tag and comment and the URI and type of the link; for a key that no
    row has, nothing changes, and the route redirects to the index all the
    same.  With a key beyond that range the statement cannot be run: the
    route fails with a 500 and the table is as before.  In every case the
    table keeps its keys, in the same order. *)
Theorem edit_rewrites_one_row (id : N) (f : form) (t : table) (uri mt : string) :
  extract_uri_and_type (form_spotify_link f) = (Some uri, Some mt) ->
  let t' := snd (edit id f t) in
  (id <= SQLITE_MAX ->
   fst (edit id f t) = RedirectIndex /\
   (forall j, j <> id -> row_of t' j = row_of t j) /\
   (row_of t id <> None -> row_of t' id = Some (row_from id f uri mt)) /\
   (row_of t id = None -> t' = t)) /\
  (SQLITE_MAX < id -> edit id f t = (InternalServerError, t)) /\
  ids t' = ids t /\
  last_rowid t' = last_rowid t /\
  (keyed t -> keyed t').
Proof.
  intros H. cbv zeta.
  destruct (N.le_gt_cases id SQLITE_MAX) as [Hid|Hid].
  - rewrite (edit_result id f t uri mt H Hid).
    cbn [fst snd]. unfold update_tag, row_of, ids, keyed. cbn [rows last_rowid].
    repeat match goal with |- _ /\ _ => split end; try reflexivity.
    + intros _.
      repeat match goal with |- _ /\ _ => split end; try reflexivity.
      * intros j Hj. now apply update_other.
      * intros Hsome. induction (rows t) as [|r l IH]; cbn in *; [congruence|].
        destruct (N.eqb_spec (col_id r) id) as [E|E]; cbn.
        -- rewrite E, N.eqb_refl. reflexivity.
        -- destruct (N.eqb_spec (col_id r) id); [contradiction | now apply IH].
      * intros Hnone. apply row_of_none in Hnone.
        rewrite (update_absent _ _ _ _ _ _ Hnone). now destruct t.
    + intros Hgt. lia.
    + apply update_ids.
    + unfold ids. cbn [rows last_rowid]. rewrite update_ids. tauto.
  - rewrite (edit_overflow id f t uri mt H Hid). cbn [fst snd].
    repeat match goal with |- _ /\ _ => split end; try reflexivity; try tauto.
    intros Hle. lia.
Qed.

Lemma delete_other (l : list row) (id j : N) :
  j <> id ->
  find (fun r => col_id r =? j) (filter (fun r => negb (col_id r =? id)) l)
  = find (fun r => col_id r =? j) l.
Proof.
  intros Hj. induction l as [|r l IH]; cbn; [reflexivity|].
  destruct (N.eqb_spec (col_id r) id) as [E|E]; cbn.
  - destruct (N.eqb_spec (col_id r) j) as [E'|E']; [congruence | exact IH].
  - destruct (col_id r =? j); [reflexivity | exact IH].
Qed.

Lemma delete_absent (l : list row) (id : N) :
  ~ In id (map col_id l) -> filter (fun r => negb (col_id r =? id)) l = l.
Proof.
  induction l as [|r l IH]; cbn; intros H; [reflexivity|].
  destruct (N.eqb_spec (col_id r) id) as [E|E]; [tauto|].
  cbn. rewrite IH by tauto. reflexivity.
Qed.

(** X13.  Deleting by a key within the integers SQLite stores removes the
    row with that key and no other: no row has the key afterwards, every
    row with another key is as before, and for a key that no row has
    nothing changes (the route redirects all the same).  With a key beyond
    that range the route fails with a 500 and the table is as before.  The
    key counter is kept, so the key of a deleted row is never handed out
    again: a row added after the deletion gets a key larger than the
    deleted one. *)
Theorem delete_removes_one_key (id : N) (t : table) :
  let t' := snd (delete_tag id t) in
  (id <= SQLITE_MAX ->
   fst (delete_tag id t) = RedirectIndex /\
   row_of t' id = None /\
   (forall j, j <> id -> row_of t' j = row_of t j) /\
   (row_of t id = None -> t' = t)) /\
  (SQLITE_MAX < id -> delete_tag id t = (InternalServerError, t)) /\
  last_rowid t' = last_rowid t /\
  (keyed t -> keyed t') /\
  (keyed t -> In id (ids t) -> id < next_rowid t').
Proof.
  cbv zeta.
  assert (Hnext : forall t0 : table,
            last_rowid t0 = last_rowid t ->
            keyed t -> In id (ids t) -> id < next_rowid t0).
  { intros t0 Hl [_ Hle] Hin. rewrite Forall_forall in Hle.
    specialize (Hle _ Hin). destruct (next_rowid_fresh t0) as [Hlast _]. lia. }
  destruct (N.le_gt_cases id SQLITE_MAX) as [Hid|Hid].
  - rewrite (delete_result id t Hid).
    unfold delete_from_tags, row_of. cbn [fst snd rows last_rowid].
    repeat match goal with |- _ /\ _ => split end; try reflexivity.
    + intros _.
      repeat match goal with |- _ /\ _ => split end; try reflexivity.
      * apply row_of_none. rewrite in_map_iff. intros (r & Hr & Hin).
        apply filter_In in Hin. destruct Hin as [_ Hin].
        rewrite Hr, N.eqb_refl in Hin. discriminate.
      * intros j Hj. now apply delete_other.
      * intros Hnone. apply row_of_none in Hnone.
        rewrite (delete_absent _ _ Hnone). now destruct t.
    + intros Hgt. lia.
    + intros [Hnd Hle]. unfold keyed, ids in *. cbn [rows last_rowid]. split.
      * now apply ids_filter_nodup.
      * rewrite Forall_forall in *. intros i Hi. apply Hle.
        now apply ids_filter_sub in Hi.
    + now apply Hnext.
  - rewrite (delete_overflow id t Hid). cbn [fst snd].
    repeat match goal with |- _ /\ _ => split end; try reflexivity; try tauto.
    + intros Hle. lia.
    + now apply Hnext.
Qed.

(** X14.  Adding a row and then deleting it by its key gives back the rows
    there were (the key being one SQLite stores). *)
Theorem delete_undoes_add (f : form) (t : table) (uri mt : string) :
  extract_uri_and_type (form_spotify_link f) = (Some uri, Some mt) ->
  next_rowid t <= SQLITE_MAX ->
  let t1 := snd (add f t) in
  rows (snd (delete_tag (last_rowid t1) t1)) = rows t.
Proof.
  intros H Hid. cbv zeta. rewrite (add_result f t uri mt H).
  cbn [snd last_rowid]. rewrite (delete_result _ _ Hid).
  unfold delete_from_tags. cbn [fst snd rows last_rowid].
  rewrite filter_app. cbn [filter row_from col_id]. rewrite N.eqb_refl.
  cbn [negb]. rewrite app_nil_r. apply delete_absent.
  destruct (next_rowid_fresh t) as [_ Hids]. rewrite Forall_forall in Hids.
  intros Hin. specialize (Hids _ Hin). lia.
Qed.

(** *** What the player finds in the table the routes wrote *)

Lemma plays_app (t : table) (l1 l2 : list row) (tag : string) :
  rows t = l1 ++ l2 ->
  plays t tag
  = match fetchone (select_by_tag l1 tag) with
    | Some x => Some x
    | None => fetchone (select_by_tag l2 tag)
    end.
Proof.
  intros H. unfold plays. rewrite H, select_by_tag_app.
  now destruct (select_by_tag l1 tag).
Qed.

(** X15.  After a successful add, the player's lookup of the form's tag
    finds the new URI and type when the tag had no row before; when the
    tag was already registered, the lookup still finds the earlier row, so
    adding a tag a second time does not change what it plays.  The lookup
    of any other tag is as before. *)
Theorem added_tag_is_found_unless_shadowed (f : form) (t : table) (uri mt : string) :
  extract_uri_and_type (form_spotify_link f) = (Some uri, Some mt) ->
  let t' := snd (add f t) in
  plays t' (form_tag_id f)
  = match plays t (form_tag_id f) with
    | Some earlier => Some earlier
    | None => Some (uri, mt)
    end /\
  (forall tag, tag <> form_tag_id f -> plays t' tag = plays t tag) /\
  (forall (w : world) (m : machine),
     ans (db w) = Ok (rows t') ->
     returned (get_tag_data w (form_tag_id f) m) = Ok (plays t' (form_tag_id f))).
Proof.
  intros H. cbv zeta. rewrite (add_result f t uri mt H). cbn [snd].
  repeat match goal with |- _ /\ _ => split end.
  - rewrite (plays_app _ (rows t) [row_from (next_rowid t) f uri mt]) by reflexivity.
    unfold plays. destruct (fetchone (select_by_tag (rows t) _)); [reflexivity|].
    unfold select_by_tag. cbn. now rewrite String.eqb_refl.
  - intros tag Hne.
    rewrite (plays_app _ (rows t) [row_from (next_rowid t) f uri mt]) by reflexivity.
    unfold plays. destruct (fetchone (select_by_tag (rows t) tag)); [reflexivity|].
    unfold select_by_tag. cbn.
    destruct (String.eqb_spec (form_tag_id f) tag); [congruence | reflexivity].
  - intros w m Hdb. unfold get_tag_data. monad. cbn. rewrite Hdb. reflexivity.
Qed.

(** X16.  After the deletion of a key, a tag that only rows with that key
    carried has no row left, and the player's lookup of it finds nothing.
    What a later scan of the tag does depends on the slot of the last tag:
    when the tag is not the one held there, it is looked up and the miss is
    printed; when it is (the tag was the last one played), the scan is
    dropped as a duplicate without any lookup, so the player does not
    notice the deletion. *)
Theorem deleted_tag_is_missed
    (dev : option string) (id : N) (t : table) (tag : string) :
  id <= SQLITE_MAX ->
  (forall r, In r (rows t) -> col_tag_id r = tag -> col_id r = id) ->
  let t' := snd (delete_tag id t) in
  plays t' tag = None /\
  forall (w : world) (m : machine),
    ans (reader_read w) = Ok tag -> ans (db w) = Ok (rows t') ->
    (last_tag_id m <> Some tag ->
     trace (scan_tag dev w m)
     = [ReaderRead; Print (TagScanned tag); Select tag; Print TagNotFound]) /\
    (last_tag_id m = Some tag ->
     trace (scan_tag dev w m) = [ReaderRead; Print DuplicateScan]).
Proof.
  intros Hid Honly. cbv zeta. rewrite (delete_result id t Hid).
  unfold delete_from_tags. cbn [snd].
  assert (Hnone : Forall (fun r => col_tag_id r <> tag)
                    (filter (fun r => negb (col_id r =? id)) (rows t))).
  { apply Forall_forall. intros r Hr Htag. apply filter_In in Hr.
    destruct Hr as [Hin Hr]. rewrite (Honly r Hin Htag), N.eqb_refl in Hr.
    discriminate. }
  split.
  - unfold plays. cbn [rows]. now apply no_row_fetches_nothing.
  - intros w m Hread Hdb. cbn [rows] in Hdb. split.
    + intros Hn. now apply (scan_miss dev w m tag _ Hread Hn Hdb Hnone).
    + intros Hl. now apply (scan_duplicate dev w m tag Hread Hl).
Qed.

(** X17.  After a successful edit of an existing row, the player's lookup
    of the form's tag finds the edited URI and type, provided no other row
    carries that tag. *)
Theorem edited_tag_is_found (id : N) (f : form) (t : table) (uri mt : string) :
  extract_uri_and_type (form_spotify_link f) = (Some uri, Some mt) ->
  id <= SQLITE_MAX ->
  row_of t id <> None ->
  (forall r, In r (rows t) -> col_tag_id r = form_tag_id f -> col_id r = id) ->
  plays (snd (edit id f t)) (form_tag_id f) = Some (uri, mt).
Proof.
  intros H Hid Hrow Honly. rewrite (edit_result id f t uri mt H Hid). cbn [snd].
  unfold plays, update_tag, row_of, select_by_tag in *. cbn [rows].
  induction (rows t) as [|r l IH]; cbn in *; [congruence|].
  destruct (N.eqb_spec (col_id r) id) as [E|E]; cbn.
  - now rewrite String.eqb_refl.
  - destruct (String.eqb_spec (col_tag_id r) (form_tag_id f)) as [E'|E'].
    + exfalso. apply E. apply Honly; auto.
    + apply IH; auto.
Qed.

(** *** Media types *)

Lemma known_type_is_dispatched (dev : option string) (w : world) (uri mt : string) :
  In mt media_types ->
  emits (fun e => negb (is_unknown_line e)) (play_media dev w uri mt).
Proof.
  intros [<-|[<-|[<-|[]]]]; unfold play_media;
    cbn [String.eqb Ascii.eqb Bool.eqb orb]; discipline; reflexivity.
Qed.

(** X18.  The routes only ever store one of the media types [track],
    [album], [playlist]: if every row of the table has one of them, so has
    every row after an add, an edit or a delete, whatever the form holds.
    For a row of such a table the player never takes its unknown media
    type branch. *)
Theorem routes_store_known_types (f : form) (id : N) (t : table) :
  known_types t ->
  known_types (snd (add f t)) /\
  known_types (snd (edit id f t)) /\
  known_types (snd (delete_tag id t)) /\
  (forall tag uri mt, plays t tag = Some (uri, mt) ->
     In mt media_types /\
     forall dev w m,
       tally is_unknown_line (trace (play_media dev w uri mt m)) = 0%nat).
Proof.
  intros Hk. unfold known_types in *.
  repeat match goal with |- _ /\ _ => split end.
  - unfold add.
    destruct (extract_uri_and_type (form_spotify_link f)) as [[uri|] [mt|]] eqn:E;
      try exact Hk.
    cbn [snd insert_tag rows]. apply Forall_app. split; [exact Hk|].
    constructor; [|constructor]. cbn. exact (extract_known _ _ _ E).
  - unfold edit.
    destruct (extract_uri_and_type (form_spotify_link f)) as [[uri|] [mt|]] eqn:E;
      try exact Hk.
    destruct (id <=? SQLITE_MAX); [|exact Hk].
    cbn [snd update_tag rows]. rewrite Forall_map.
    eapply Forall_impl; [|exact Hk]. cbn. intros r Hr.
    destruct (col_id r =? id); [|exact Hr]. cbn. exact (extract_known _ _ _ E).
  - unfold delete_tag. destruct (id <=? SQLITE_MAX); [|exact Hk].
    cbn [snd delete_from_tags rows]. rewrite Forall_forall in *.
    intros r Hr. apply filter_In in Hr. now apply Hk.
  - assert (Hmt : forall tag uri mt, plays t tag = Some (uri, mt) ->
                    In mt media_types).
    { intros tag uri mt. unfold plays, select_by_tag.
      induction Hk as [|r l Hr _ IH]; cbn; [discriminate|].
      destruct (String.eqb (col_tag_id r) tag); cbn; [|exact IH].
      intros H. injection H as _ <-. exact Hr. }
    intros tag uri mt Hp. split; [now apply (Hmt tag uri)|].
    intros dev w m. apply emits_none, known_type_is_dispatched.
    now apply (Hmt tag uri).
Qed.

(** *** Reading a tag for the form *)

(** X19.  [read_tag_id] asks the reader once and then releases the GPIO
    pins, exactly once and as the last thing it does, whether the read
    succeeded or not.  It answers with the tag that was read, or, when the
    read failed with an [Exception], with the error and status 500; only
    an interrupt or exit request gets out of it, and then too after the
    pins were released. *)
Theorem read_tag_id_always_cleans_up (r : reply string) (m : machine) :
  let out := read_tag_id r m in
  trace out = [ReaderRead; GpioCleanup] /\
  emitted out = [(now m, ReaderRead); ((now m + took r)%N, GpioCleanup)] /\
  (forall tag, ans r = Ok tag -> returned out = Ok (TagRead tag)) /\
  (forall e, ans r = Raise e -> isinstance_Exception e = true ->
     returned out = Ok (ReadError e 500)) /\
  (forall e, ans r = Raise e -> isinstance_Exception e = false ->
     returned out = Raise e).
Proof.
  cbv zeta. unfold read_tag_id. monad. cbn.
  destruct (ans r) as [tag|e]; cbn.
  - repeat split; try reflexivity; intros; congruence.
  - destruct (isinstance_Exception e) eqn:E; cbn;
      (repeat split; try reflexivity; intros; congruence).
Qed.

End RegistryFacts.

(** ** The properties at work on concrete runs *)

Module Instances.
Import Registry Player PlayerSpec App AppSpec.
#[local] Open Scope list_scope.

(** The speaker is offline when tag 42 is scanned: the tag is recorded all
    the same. *)
Lemma rejected_transfer_witness :
  last_tag_id boot = None /\
  last_tag_id (after (scan_tag pi w_rejected boot)) = Some "42".
Proof.
  split; [reflexivity|].
  refine (proj1 (proj2
    (PlayerFacts.rejected_transfer_still_records_tag pi w_rejected boot
       "42" "spotify:track:abc" "track" lullaby
       eq_refl _ eq_refl eq_refl eq_refl))).
  discriminate.
Defined.

(** Two scans in a row of a tag that is not registered: the second one
    queries the registry again. *)
Lemma dedup_as_stated_fails : ~ dedup_as_stated.
Proof.
  intros H.
  specialize (H pi w_unregistered w_unregistered boot "7"
                eq_refl eq_refl eq_refl).
  vm_compute in H. discriminate H.
Qed.

Lemma recorded_tag_witness :
  tally tag_effect
    (trace (loop pi [w_hit; w_hit] (after (tick pi w_hit boot)))) = 0.
Proof.
  exact (proj1
    (Scans.recorded_tag_is_suppressed pi [w_hit; w_hit]
       (after (tick pi w_hit boot)) "42" eq_refl
       (Forall_cons w_hit (eq_refl : ans (reader_read w_hit) = Ok "42")
          (Forall_cons w_hit (eq_refl : ans (reader_read w_hit) = Ok "42")
             (Forall_nil _))))).
Defined.

(** A row of an unknown media type: the transfer call is made before the
    type is looked at. *)
Lemma dispatch_as_stated_fails : ~ dispatch_as_stated.
Proof.
  intros H.
  destruct (H pi w_hit "spotify:episode:xyz" "podcast" boot) as (_ & _ & H3).
  assert (H4 : tally is_backend_call
                 (trace (play_media pi w_hit "spotify:episode:xyz" "podcast" boot)) = 0)
    by (apply H3; discriminate).
  vm_compute in H4. discriminate H4.
Qed.

Lemma play_media_dispatch_witness :
  exists rest,
    trace (play_media pi w_hit "spotify:track:abc" "track" boot)
    = [Spotify (transfer_playback pi true); Sleep 1000;
       Spotify (start_playback pi None (Some ["spotify:track:abc"]))] ++ rest /\
    tally is_backend_call rest = 0.
Proof.
  exact (proj1
    (PlayerFacts.play_media_dispatch pi w_hit "spotify:track:abc" "track" boot
       eq_refl eq_refl) eq_refl).
Defined.

Lemma unregistered_misses : misses "7" w_unregistered.
Proof.
  split; [reflexivity|]. exists lullaby. split; [reflexivity|].
  repeat constructor. discriminate.
Defined.

Lemma registry_miss_witness :
  returned (scan_tag pi w_unregistered boot) = Ok tt /\
  tally is_backend_call (trace (scan_tag pi w_unregistered boot)) = 0.
Proof.
  pose proof (Scans.registry_miss_is_not_fatal pi w_unregistered boot "7"
                unregistered_misses) as H.
  exact (conj (proj1 H) (proj1 (proj2 H))).
Defined.

(** Tag 7 was played and its row deleted since: the scan is taken for a
    duplicate and no miss is printed. *)
Lemma miss_as_stated_fails : ~ miss_as_stated.
Proof.
  intros H. unfold miss_as_stated in H. cbv zeta in H.
  destruct (H pi w_unregistered m_seven "7" unregistered_misses) as (_ & Hin & _).
  vm_compute in Hin. destruct Hin as [Hin|[Hin|[]]]; discriminate Hin.
Qed.

Lemma registry_miss_keeps_witness :
  last_tag_id (after (loop pi [w_unregistered; w_unregistered] boot))
  = last_tag_id boot /\
  tally (is_lookup_of "7")
    (trace (loop pi [w_unregistered; w_unregistered] boot)) = 2.
Proof.
  assert (Hnew : last_tag_id boot <> Some "7") by discriminate.
  pose proof (Scans.registry_miss_leaves_last_tag pi
                [w_unregistered; w_unregistered] boot "7"
                (Forall_cons w_unregistered unregistered_misses
                   (Forall_cons w_unregistered unregistered_misses
                      (Forall_nil _)))) as H.
  cbv zeta in H. destruct H as (Hkeep & Hfresh & _).
  split; [exact Hkeep|].
  refine (proj1 (Hfresh Hnew _)). repeat constructor.
Defined.

(** The same state: the iteration leaves the slot alone, but the next scan
    of tag 7 is not looked up. *)
Lemma miss_rescan_as_stated_fails : ~ miss_rescan_as_stated.
Proof.
  intros H. unfold miss_rescan_as_stated in H. cbv zeta in H.
  destruct (H pi w_unregistered w_unregistered m_seven "7"
              unregistered_misses unregistered_misses) as (_ & Hnext).
  specialize (Hnext eq_refl). vm_compute in Hnext. discriminate Hnext.
Qed.

(** Next is honoured at time 0; the loop sleeps 300 ms, polls Previous,
    sleeps 100 ms and comes back to Next at 400 ms.  A press at 350 ms that
    is over by then is never read, although the run goes on to 700 ms. *)
Lemma debounce_as_stated_fails : ~ debounce_as_stated.
Proof.
  intros H. unfold debounce_as_stated in H. cbv zeta in H.
  destruct (H pi [w_pressed; w_unregistered; w_unregistered; w_unregistered]
              boot blip NextTrack 0%N 350%N) as (t & Ht & Hin).
  - reflexivity.
  - unfold follows. vm_compute. repeat constructor.
  - vm_compute. tauto.
  - reflexivity.
  - reflexivity.
  - reflexivity.
  - vm_compute in Hin.
    repeat match goal with
           | H0 : _ \/ _ |- _ => destruct H0 as [H0|H0]
           | H0 : (_, _) = (_, _) |- _ => inversion H0; clear H0; subst
           | H0 : False |- _ => destruct H0
           end.
    apply Ht. reflexivity.
Qed.

Example pressed_run :
  now (after (loop pi [w_pressed; w_unregistered; w_unregistered; w_unregistered]
                boot)) = 700%N.
Proof. reflexivity. Qed.

(** The transfer is rejected and the playback query breaks, in one
    iteration: both are printed and the loop goes on. *)
Lemma no_failure_leaves_witness :
  undisturbed w_troubled = true /\
  returned (tick pi w_troubled boot) = Ok tt /\
  tally is_error_line (trace (tick pi w_troubled boot))
  = tally (is_failed_call w_troubled) (trace (tick pi w_troubled boot)).
Proof.
  split; [reflexivity|].
  exact (Containment.no_failure_leaves_the_tick pi w_troubled boot eq_refl).
Defined.

Example two_failures_two_lines :
  tally is_error_line (trace (tick pi w_troubled boot)) = 2.
Proof. reflexivity. Qed.

(** The Next button held down over two iterations is honoured twice, 400 ms
    apart: the debounce sleep and the loop delay. *)
Example held_button_run :
  filter (fun te => is_press NextTrack (snd te))
         (emitted (loop pi [w_held; w_held] boot))
  = [(1040%N, Print (ButtonPressed NextTrack));
     (1440%N, Print (ButtonPressed NextTrack))].
Proof. vm_compute. reflexivity. Qed.

(** An interrupt in the second iteration. *)
Example interrupted_run :
  match main pi [w_hit; w_stop] boot with
  | (s, _, tr) => s = Exited None /\ tally is_cleanup (map snd tr) = 1
  end.
Proof. vm_compute. auto. Qed.

Lemma example_link_matches :
  exists pre post,
    first_match (form_spotify_link example_form) pre "track" "abc123" post.
Proof. apply AppFacts.search_sound. reflexivity. Defined.

Lemma link_decides_witness :
  add example_form empty_table
  = (RedirectIndex,
     insert_tag empty_table "584190432352" "spotify:track:abc123" "track"
       "bedtime song").
Proof.
  destruct example_link_matches as (pre & post & H).
  exact (proj1 (proj2
    (proj1 (AppFacts.link_decides_the_row example_form 0 empty_table)
       pre "track" "abc123" post H))).
Defined.

(** *** The further properties on concrete runs *)

Lemma lookup_first_row_witness :
  returned (get_tag_data w_hit "42" boot) = Ok (Some ("spotify:track:abc", "track")).
Proof.
  pose proof (Lookup.lookup_returns_first_row w_hit boot "42" lullaby eq_refl) as H.
  cbv zeta in H. destruct H as (_ & _ & H & _).
  exact (H [] (a_row "42" "spotify:track:abc" "track") [] eq_refl
           (Forall_nil _) eq_refl).
Defined.

Lemma reader_failure_witness :
  trace (scan_tag pi (with_reader broken w_hit) boot)
  = [ReaderRead; Print (AuthError OtherException)].
Proof.
  exact (proj1 (proj2
    (Lookup.reader_failure_is_reported pi (with_reader broken w_hit) boot
       OtherException eq_refl eq_refl))).
Defined.

Lemma lookup_failure_witness :
  trace (scan_tag pi (with_db broken w_hit) boot)
  = [ReaderRead; Print (TagScanned "42"); Select "42";
     Print (AuthError OtherException)].
Proof.
  refine (proj1 (proj2
    (Lookup.lookup_failure_is_reported pi (with_db broken w_hit) boot "42"
       OtherException eq_refl _ eq_refl eq_refl))).
  discriminate.
Defined.

Lemma failed_start_witness :
  last_tag_id (after (scan_tag pi (with_start broken w_hit) boot)) = Some "42" /\
  In (Print (StartError OtherException))
     (trace (scan_tag pi (with_start broken w_hit) boot)).
Proof.
  assert (Hnew : last_tag_id boot <> Some "42") by discriminate.
  pose proof (Lookup.tag_is_recorded_once_transferred pi
                (with_start broken w_hit) boot "42" "spotify:track:abc" "track"
                lullaby eq_refl Hnew eq_refl eq_refl eq_refl eq_refl eq_refl) as H.
  cbv zeta in H. destruct H as (_ & Hl & He & _).
  split; [exact Hl|]. apply (He OtherException eq_refl). now left.
Defined.

Lemma unexpected_transfer_failure_witness :
  last_tag_id
    (after (scan_tag pi
              (scene "42" lullaby (Raise OtherException) (Ok None) released false)
              boot))
  = last_tag_id boot.
Proof.
  assert (Hnew : last_tag_id boot <> Some "42") by discriminate.
  assert (Hother : OtherException <> SpotifyException) by discriminate.
  exact (proj1 (proj2 (proj2
    (Lookup.unexpected_transfer_failure_is_retried pi
       (scene "42" lullaby (Raise OtherException) (Ok None) released false)
       boot "42" "spotify:track:abc" "track" lullaby OtherException
       eq_refl Hnew eq_refl eq_refl eq_refl eq_refl Hother)))).
Defined.

Lemma held_iteration_witness :
  (now boot + 100 * 2 <= now (after (loop pi [w_held; w_held] boot)))%N.
Proof.
  exact (proj2 (Polling.iterations_take_their_time pi [w_held; w_held] boot eq_refl)).
Defined.

Lemma add_fresh_row_witness :
  rows one_tag
  = [row_from 1 example_form "spotify:track:abc123" "track"].
Proof.
  exact (proj1 (proj2
    (RegistryFacts.add_appends_a_fresh_row example_form empty_table
       "spotify:track:abc123" "track" eq_refl))).
Defined.

Lemma edit_one_row_witness :
  row_of (snd (edit 1 second_form one_tag)) 1
  = Some (row_from 1 second_form "spotify:album:xyz789" "album").
Proof.
  assert (Hid : (1 <= SQLITE_MAX)%N) by (unfold SQLITE_MAX; lia).
  pose proof (RegistryFacts.edit_rewrites_one_row 1 second_form one_tag
                "spotify:album:xyz789" "album" eq_refl) as H.
  cbv zeta in H. destruct H as (H & _). destruct (H Hid) as (_ & _ & H1 & _).
  apply H1. discriminate.
Defined.

Lemma delete_undoes_add_witness :
  rows (snd (delete_tag (last_rowid two_tags) two_tags)) = rows one_tag.
Proof.
  assert (Hid : (next_rowid one_tag <= SQLITE_MAX)%N) by (vm_compute; discriminate).
  exact (RegistryFacts.delete_undoes_add second_form one_tag
           "spotify:album:xyz789" "album" eq_refl Hid).
Defined.

(** The tag of the example form is added a second time, for an album: the
    player still finds the track. *)
Lemma shadowed_add_witness :
  plays two_tags "584190432352" = Some ("spotify:track:abc123", "track").
Proof.
  exact (proj1
    (RegistryFacts.added_tag_is_found_unless_shadowed second_form one_tag
       "spotify:album:xyz789" "album" eq_refl)).
Defined.

Lemma deleted_tag_witness : plays (snd (delete_tag 1 one_tag)) "584190432352" = None.
Proof.
  assert (Hid : (1 <= SQLITE_MAX)%N) by (unfold SQLITE_MAX; lia).
  refine (proj1 (RegistryFacts.deleted_tag_is_missed pi 1 one_tag
                   "584190432352" Hid _)).
  intros r [<-|[]] _. reflexivity.
Defined.

Lemma edited_tag_witness :
  plays (snd (edit 1 second_form one_tag)) "584190432352"
  = Some ("spotify:album:xyz789", "album").
Proof.
  assert (Hid : (1 <= SQLITE_MAX)%N) by (unfold SQLITE_MAX; lia).
  refine (RegistryFacts.edited_tag_is_found 1 second_form one_tag
            "spotify:album:xyz789" "album" eq_refl Hid _ _).
  - discriminate.
  - intros r [<-|[]] _. reflexivity.
Defined.

Lemma known_types_witness :
  known_types (snd (add bad_form two_tags)) /\
  known_types (snd (edit 2 example_form two_tags)).
Proof.
  assert (Hk : known_types two_tags).
  { unfold known_types. cbn.
    constructor; [cbn; auto | constructor; [cbn; auto | constructor]]. }
  pose proof (RegistryFacts.routes_store_known_types bad_form 2 two_tags Hk) as H1.
  pose proof (RegistryFacts.routes_store_known_types example_form 2 two_tags Hk) as H2.
  exact (conj (proj1 H1) (proj1 (proj2 H2))).
Defined.

End Instances.
